(** * epub2md: the structure-resolution engine of [src/epub2md/__init__.py]

    A shallow embedding of the functions that locate the package
    descriptor, read the spine, reconcile the table of contents with the
    spine, resolve fragment ranges and slice chapter segments, followed by
    the properties proved about them.

    Conventions.
    - A Python [str] is a Rocq [string]; a character stands for one code
      point and offsets count characters.  Only code points below 256 are
      representable, which covers every literal the program searches for.
    - Python integers that can be [-1] (the result of [str.find]) are [Z].
    - [None] is [None]; a value tested for truthiness goes through
      [truthy] (for [str | None]) or an explicit emptiness test.
    - An uncaught exception and [sys.exit] are results of type [outcome]. *)

From Stdlib Require Import ZArith QArith Ascii.
From Stdlib Require String.
From stdpp Require Import gmap strings list sorting.

Local Open Scope Z_scope.
Local Open Scope nat_scope.

(** ** Python strings *)

Module Str.

(** The double quote character; Rocq string literals spell the others. *)
Definition dq : ascii := "034"%char.

(** [s] between two double quotes / two single quotes. *)
Definition dquoted (s : string) : string := String dq (s +:+ String dq "").
Definition squoted (s : string) : string := "'" +:+ s +:+ "'".

(** [t.startswith(p)] *)
Fixpoint startswith (t p : string) {struct p} : bool :=
  match p with
  | EmptyString => true
  | String a p' =>
      match t with
      | EmptyString => false
      | String b t' => if Ascii.eqb a b then startswith t' p' else false
      end
  end.

(** The lowest offset at which [p] occurs in [t]. *)
Fixpoint index_of (p t : string) : option nat :=
  if startswith t p then Some 0
  else match t with
       | EmptyString => None
       | String _ t' => S <$> index_of p t'
       end.

(** The highest offset at which [p] occurs in [t]. *)
Fixpoint last_index_of (p t : string) : option nat :=
  match t with
  | EmptyString => if startswith t p then Some 0 else None
  | String _ t' =>
      match last_index_of p t' with
      | Some i => Some (S i)
      | None => if startswith t p then Some 0 else None
      end
  end.

(** [t[:n]] and [t[n:]] for [n >= 0]. *)
Fixpoint take (n : nat) (t : string) : string :=
  match n, t with
  | S n', String c t' => String c (take n' t')
  | _, _ => EmptyString
  end.

Fixpoint drop (n : nat) (t : string) : string :=
  match n, t with
  | S n', String _ t' => drop n' t'
  | _, _ => t
  end.

(** [t.find(p)]: the lowest offset of [p] in [t], or [-1]. *)
Definition find (t p : string) : Z :=
  match index_of p t with
  | Some i => Z.of_nat i
  | None => (-1)%Z
  end.

(** [t.rfind(p, 0, hi)] for [hi >= 0]: the highest offset of [p] in
    [t[0:hi]], or [-1]. *)
Definition rfind0 (t p : string) (hi : Z) : Z :=
  match last_index_of p (take (Z.to_nat hi) t) with
  | Some i => Z.of_nat i
  | None => (-1)%Z
  end.

(** [len(t)] *)
Definition len (t : string) : Z := Z.of_nat (String.length t).

(** [t[lo:hi]] for [lo >= 0] and [hi >= 0]. *)
Definition slice (t : string) (lo hi : Z) : string :=
  take (Z.to_nat (hi - lo)) (drop (Z.to_nat lo) t).

(** [t.endswith(p)] *)
Definition endswith (t p : string) : bool :=
  if decide (String.length p ≤ String.length t)
  then bool_decide (drop (String.length t - String.length p) t = p)
  else false.

(** [c in t] for a single character. *)
Fixpoint has_char (c : ascii) (t : string) : bool :=
  match t with
  | EmptyString => false
  | String b t' => if Ascii.eqb c b then true else has_char c t'
  end.

End Str.

(** Truthiness of a value of type [str | None]: [None] and the empty
    string are false. *)
Definition truthy (o : option string) : bool :=
  match o with
  | Some (String _ _) => true
  | _ => false
  end.

(** ** Segment extraction *)

(** The four literal patterns [_find_anchor] searches for. *)
Definition anchor_pats (anchor : string) : list string :=
  [ "id=" +:+ Str.dquoted anchor;
    "id=" +:+ Str.squoted anchor;
    "name=" +:+ Str.dquoted anchor;
    "name=" +:+ Str.squoted anchor ].

(** [min] of a non-empty list of integers. *)
Definition py_min (z : Z) (zs : list Z) : Z := foldl Z.min z zs.

Definition _find_anchor (text : string) (anchor : option string) : option Z :=
  match anchor with
  | Some (String _ _ as a) =>
      let pats := anchor_pats a in
      let positions :=
        filter (λ i, i ≠ (-1)%Z) (Str.find text <$> pats) in
      match positions with
      | [] => None
      | p0 :: ps =>
          let pos := py_min p0 ps in
          let lt := Str.rfind0 text "<" pos in
          Some (if bool_decide (lt ≠ (-1)%Z) then lt else pos)
      end
  | _ => None
  end.

Definition _extract_segment (text : string) (start_id end_id : option string)
  : option string :=
  if negb (truthy start_id) && negb (truthy end_id) then None
  else
    match (if truthy start_id then _find_anchor text start_id else Some 0%Z) with
    | None => None
    | Some start =>
        let end_ := Str.len text in
        let end_ :=
          if truthy end_id then
            match _find_anchor text end_id with
            | Some e =>
                if bool_decide (e ≠ 0%Z) && bool_decide (start < e)%Z
                then e else end_
            | None => end_
            end
          else end_ in
        if bool_decide (start < end_)%Z
        then Some (Str.slice text start end_)
        else None
    end.

(** ** XML trees, paths and the unpacked archive *)

(** An [xml.etree.ElementTree.Element]: the tag in Clark notation
    ([{namespace}local]), the attribute dictionary and the child elements
    in document order.  The functions embedded here read neither [text]
    nor [tail]. *)
#[local] Set Warnings "-register-all".
Inductive Element : Type :=
  Elem (tag : string) (attrib : gmap string string) (children : list Element).

Definition tag (e : Element) : string := let 'Elem t _ _ := e in t.
Definition attrib (e : Element) : gmap string string := let 'Elem _ a _ := e in a.
Definition children (e : Element) : list Element := let 'Elem _ _ c := e in c.

(** The elements below [e] in document order, [e] itself excluded: what the
    path prefix [.//] ranges over. *)
Fixpoint descendants (e : Element) : list Element :=
  let 'Elem _ _ cs := e in
  (fix go (l : list Element) : list Element :=
     match l with
     | [] => []
     | c :: l' => c :: descendants c ++ go l'
     end) cs.

(** [e.find(".//" + t)] and [e.find(t)] for a tag [t] in Clark notation. *)
Definition find_descendant (t : string) (e : Element) : option Element :=
  head (filter (λ c, tag c = t) (descendants e)).

Definition find_child (t : string) (e : Element) : option Element :=
  head (filter (λ c, tag c = t) (children e)).

(** A [pathlib.Path], by its string form. *)
Definition Path : Type := string.

(** The exceptions the embedded code can meet. *)
Inductive exn : Type :=
| ParseError          (* xml.etree.ElementTree.ParseError *)
| FileNotFoundError
| OtherOSError        (* PermissionError, IsADirectoryError, ... *)
| TypeError.

#[global] Instance exn_eq_dec : EqDecision exn.
Proof. solve_decision. Defined.

(** The library and the operating system as the program sees them.  The
    fields are the calls the source makes; each is an observation of the
    unpacked archive, which none of the embedded functions modifies. *)
Class World : Type := {
  (** [base / rel] *)
  joinpath : Path → string → Path;
  (** [p.parent] *)
  parent : Path → Path;
  (** [Path(s).stem] *)
  stem : string → string;
  (** [urllib.parse.unquote] *)
  unquote : string → string;
  (** [p.exists()] *)
  path_exists : Path → bool;
  (** [p.resolve()] *)
  resolve : Path → Path;
  (** [ET.parse(p)]: the root element or the exception raised. *)
  et_parse : Path → Element + exn;
  (** [p.read_text(encoding="utf-8", errors="ignore")]; [None] stands for
      an [OSError]. *)
  read_text : Path → option string;
}.

(** The primitive effects of the program.  The first three only observe
    the file system; the others change it or the terminal. *)
Inductive effect : Type :=
| EParse (p : Path)
| EExists (p : Path)
| EReadText (p : Path)
| EMkdir (p : Path)
| EWriteText (p : Path) (s : string)
| ERun (cmd : list string)
| EPrint (s : string).

Definition is_observation (e : effect) : bool :=
  match e with
  | EParse _ | EExists _ | EReadText _ => true
  | _ => false
  end.

(** Computations that perform effects and may raise: the effects performed
    so far, and a value or the exception that interrupted it. *)
Definition IO (A : Type) : Type := list effect * (A + exn).

Definition io_ret {A} (a : A) : IO A := ([], inl a).
Definition io_bind {A B} (m : IO A) (k : A → IO B) : IO B :=
  match m with
  | (tr, inl a) => let '(tr', r) := k a in (tr ++ tr', r)
  | (tr, inr e) => (tr, inr e)
  end.

Notation "'let*' x ':=' m 'in' k" := (io_bind m (λ x, k))
  (at level 10, x name, m at level 100, k at level 200).

Definition trace {A} (m : IO A) : list effect := m.1.
Definition result {A} (m : IO A) : A + exn := m.2.

(** [try: m  except (e1, ...): return d] *)
Definition io_catch {A} (m : IO A) (caught : exn → bool) (d : A) : IO A :=
  match m with
  | (tr, inr e) => if caught e then (tr, inl d) else (tr, inr e)
  | _ => m
  end.

(** A chapter dictionary of [main]. *)
Record Chapter : Type := mkChapter {
  order : nat;
  title : string;
  src : string;
  fragment : option string;
  html_path : Path;
  start_id : option string;
  end_id : option string;
}.

Definition set_start_end (s e : option string) (ch : Chapter) : Chapter :=
  mkChapter (order ch) (title ch) (src ch) (fragment ch) (html_path ch) s e.

Definition set_end (e : option string) (ch : Chapter) : Chapter :=
  mkChapter (order ch) (title ch) (src ch) (fragment ch) (html_path ch)
    (start_id ch) e.

(** An entry of the table of contents: title, file part of the href,
    fragment. *)
Definition TocItem : Type := string * string * option string.

(** How the structure-resolution part of [main] ends: normally, through
    [sys.exit(msg)], or with an exception nobody catches. *)
Inductive outcome (A : Type) : Type :=
| Done (a : A)
| Exit (msg : string)
| Uncaught (e : exn).
Arguments Done {A} a.
Arguments Exit {A} msg.
Arguments Uncaught {A} e.

(** Sequencing: [sys.exit] and an uncaught exception end the run. *)
#[global] Instance outcome_bind : MBind outcome := λ A B k m,
  match m with
  | Done a => k a
  | Exit msg => Exit msg
  | Uncaught e => Uncaught e
  end.

(** [enumerate(l, 1)] *)
Definition enumerate1 {A} (l : list A) : list (nat * A) :=
  zip (seq 1 (length l)) l.

(** [enumerate(l)] *)
Definition enumerate0 {A} (l : list A) : list (nat * A) :=
  zip (seq 0 (length l)) l.

(** [l.sort(key=key)]: Python's sort is stable, and a stable sort has one
    possible result, the one insertion sort computes. *)
Fixpoint insert_by {A} (key : A → nat) (x : A) (l : list A) : list A :=
  match l with
  | [] => [x]
  | y :: l' =>
      if decide (key x ≤ key y) then x :: l else y :: insert_by key x l'
  end.

Fixpoint sort_by {A} (key : A → nat) (l : list A) : list A :=
  match l with
  | [] => []
  | x :: l' => insert_by key x (sort_by key l')
  end.

(** [len(t) < len(s) * 0.5].  The product is a float; halving an integer
    below 2^53 is exact and Python compares an integer with a float
    exactly, so the comparison is the one of the rationals. *)
Definition lt_half (t s : nat) : bool :=
  match (inject_Z (Z.of_nat t) ?= inject_Z (Z.of_nat s) * (1 # 2))%Q with
  | Lt => true
  | _ => false
  end.

(** [by_file[k].append(v)] on a [defaultdict(list)]; a dictionary keeps
    its keys in insertion order. *)
Fixpoint by_file_append (k : Path) (v : nat) (d : list (Path * list nat))
  : list (Path * list nat) :=
  match d with
  | [] => [(k, [v])]
  | (k', vs) :: d' =>
      if decide (k = k') then (k', vs ++ [v]) :: d'
      else (k', vs) :: by_file_append k v d'
  end.

Section Engine.
Context `{W : World}.

Definition io_parse (p : Path) : IO Element := ([EParse p], et_parse p).
Definition io_exists (p : Path) : IO bool := ([EExists p], inl (path_exists p)).

(** [tag.split("}", 1)[-1] if "}" in tag else tag] *)
Fixpoint _ln (tag : string) : string :=
  match tag with
  | EmptyString => EmptyString
  | String c r =>
      if Ascii.eqb c "}" then r
      else if Str.has_char "}" r then _ln r else tag
  end.

Definition _parse_xml (path : Path) : IO (option Element) :=
  io_catch (let* t := io_parse path in io_ret (Some t))
    (λ e, bool_decide (e = ParseError) || bool_decide (e = FileNotFoundError))
    None.

Definition container_ns_rootfile : string :=
  "{urn:oasis:names:tc:opendocument:xmlns:container}rootfile".

Definition _find_opf (root : Path) : IO (option Path) :=
  let* tree := _parse_xml (joinpath (joinpath root "META-INF") "container.xml") in
  match tree with
  | None => io_ret None
  | Some tree =>
      match find_descendant container_ns_rootfile tree with
      | None => io_ret None
      | Some rf =>
          match attrib rf !! "full-path" with
          | Some (String _ _ as fp) =>
              let opf := joinpath root fp in
              let* ex := io_exists opf in
              io_ret (if ex then Some opf else None)
          | _ => io_ret None
          end
      end
  end.

Definition opf_ns (local : string) : string :=
  "{http://www.idpf.org/2007/opf}" +:+ local.

(** The manifest comprehension: later items replace earlier ones with
    the same id; items without an id are left out. *)
Definition manifest_of (items : list Element) : gmap string Element :=
  foldl (λ m item,
           match attrib item !! "id" with
           | Some id => <[id := item]> m
           | None => m
           end) ∅ items.

Definition _parse_opf (root : Path)
  : IO (option Path * gmap string Element * option Element) :=
  let* opf := _find_opf root in
  match opf with
  | None => io_ret (opf, ∅, None)
  | Some o =>
      let* tree := _parse_xml o in
      match tree with
      | None => io_ret (opf, ∅, None)
      | Some pkg =>
          let mel := find_child (opf_ns "manifest") pkg in
          let manifest := manifest_of (from_option children [] mel) in
          let spine_el := find_child (opf_ns "spine") pkg in
          io_ret (opf, manifest, spine_el)
      end
  end.

(** One iteration of the loop of [_find_spine]. *)
Definition spine_step (manifest : gmap string Element)
    (items : list string) (ref : Element) : list string :=
  if bool_decide (_ln (tag ref) ≠ "itemref") then items
  else
    let idref := default "" (attrib ref !! "idref") in
    match manifest !! idref with
    | None => items
    | Some it =>
        let href := default "" (attrib it !! "href") in
        let mt := default "" (attrib it !! "media-type") in
        if negb (bool_decide (href = "")) && bool_decide (is_Some (Str.index_of "html" mt))
        then items ++ [unquote href]
        else items
    end.

Definition spine_items (manifest : gmap string Element) (spine_el : Element)
  : list string :=
  foldl (spine_step manifest) [] (children spine_el).

Definition _find_spine (root : Path) : IO (option Path * list string) :=
  let* r := _parse_opf root in
  let '(opf, manifest, spine_el) := r in
  match opf, spine_el with
  | Some o, Some sp => io_ret (Some (parent o), spine_items manifest sp)
  | _, _ => io_ret (None, [])
  end.

(** *** Title inference *)

(** Lower case of an ASCII letter: how [re.IGNORECASE] compares the
    letters of the patterns below. *)
Definition lower (c : ascii) : ascii :=
  let n := nat_of_ascii c in
  if (65 <=? n) && (n <=? 90) then ascii_of_nat (n + 32) else c.

Fixpoint startswith_ci (t p : string) {struct p} : bool :=
  match p with
  | EmptyString => true
  | String a p' =>
      match t with
      | EmptyString => false
      | String b t' =>
          if Ascii.eqb (lower a) (lower b) then startswith_ci t' p' else false
      end
  end.

Fixpoint index_of_ci (p t : string) : option nat :=
  if startswith_ci t p then Some 0
  else match t with
       | EmptyString => None
       | String _ t' => S <$> index_of_ci p t'
       end.

(** A match of [<tag[^>]*>(.*?)</tag>] (flags [DOTALL | IGNORECASE])
    that starts at the first character of [text]; the result is group 1.
    [[^>]*>] can only stop at the first [>], and the lazy group ends at
    the first closing tag after it. *)
Definition heading_match_here (tg text : string) : option string :=
  if startswith_ci text ("<" +:+ tg) then
    let r := Str.drop (String.length ("<" +:+ tg)) text in
    match Str.index_of ">" r with
    | Some j =>
        let body := Str.drop (S j) r in
        match index_of_ci ("</" +:+ tg +:+ ">") body with
        | Some k => Some (Str.take k body)
        | None => None
        end
    | None => None
    end
  else None.

(** [re.search] of that pattern: the leftmost match. *)
Fixpoint heading_search (tg text : string) : option string :=
  match heading_match_here tg text with
  | Some g => Some g
  | None =>
      match text with
      | EmptyString => None
      | String _ text' => heading_search tg text'
      end
  end.

(** [re.sub(r"<[^>]+>", "", s)]; [skip] characters of a match are still
    to be dropped. *)
Fixpoint strip_tags_go (skip : nat) (s : string) : string :=
  match s with
  | EmptyString => EmptyString
  | String c s' =>
      match skip with
      | S k => strip_tags_go k s'
      | 0 =>
          if Ascii.eqb c "<" then
            match Str.index_of ">" s' with
            | Some (S m) => strip_tags_go (S (S m)) s'
            | _ => String c (strip_tags_go 0 s')
            end
          else String c (strip_tags_go 0 s')
      end
  end.

Definition strip_tags (s : string) : string := strip_tags_go 0 s.

(** [str.isspace] on the code points below 256. *)
Definition is_space (c : ascii) : bool :=
  let n := nat_of_ascii c in
  ((9 <=? n) && (n <=? 13)) || ((28 <=? n) && (n <=? 32))
  || (n =? 133) || (n =? 160).

Fixpoint lstrip (s : string) : string :=
  match s with
  | String c s' => if is_space c then lstrip s' else s
  | EmptyString => EmptyString
  end.

Fixpoint rstrip (s : string) : string :=
  match s with
  | EmptyString => EmptyString
  | String c s' =>
      match rstrip s' with
      | EmptyString => if is_space c then EmptyString else String c EmptyString
      | r => String c r
      end
  end.

(** [s.strip()] *)
Definition strip (s : string) : string := rstrip (lstrip s).

(** The body of the [for tag in ("h1", "h2", "h3")] loop, for the tags
    still to try. *)
Fixpoint title_loop (tags : list string) (text : string) : option string :=
  match tags with
  | [] => None
  | tg :: tags' =>
      match heading_search tg text with
      | Some g =>
          match strip (strip_tags g) with
          | String _ _ as inner => Some inner
          | EmptyString => title_loop tags' text
          end
      | None => title_loop tags' text
      end
  end.

Definition _extract_title (path : Path) : option string :=
  match read_text path with
  | None => None
  | Some text => title_loop ["h1"; "h2"; "h3"] text
  end.

(** *** Chapter selection (lines 157-188 of [main]) *)

Definition has_html_ext (src : string) : bool :=
  existsb (Str.endswith src) [".xhtml"; ".html"; ".htm"].

(** One iteration of the loop over the table of contents. *)
Definition toc_step (base_dir : Path) (chapters : list Chapter)
    (ie : nat * TocItem) : list Chapter :=
  let '(i, (title, fp, frag)) := ie in
  let src := unquote fp in
  if negb (has_html_ext src) then chapters
  else
    let hp := joinpath base_dir src in
    if negb (path_exists hp) then chapters
    else chapters ++ [mkChapter i title src frag hp None None].

Definition toc_chapters (base_dir : Path) (items : list TocItem)
  : list Chapter :=
  foldl (toc_step base_dir) [] (enumerate1 items).

(** [_extract_title(hp) or Path(src).stem] *)
Definition spine_title (hp : Path) (src : string) : string :=
  match _extract_title hp with
  | Some (String _ _ as t) => t
  | _ => stem src
  end.

(** One iteration of the loop over the spine. *)
Definition spine_chapter_step (base_dir : Path) (chapters : list Chapter)
    (ie : nat * string) : list Chapter :=
  let '(i, src) := ie in
  let hp := joinpath base_dir src in
  if negb (path_exists hp) then chapters
  else chapters ++ [mkChapter i (spine_title hp src) src None hp None None].

Definition spine_chapters (base_dir : Path) (spine_files : list string)
  : list Chapter :=
  foldl (spine_chapter_step base_dir) [] (enumerate1 spine_files).

(** The two sets of the coverage check. *)
Definition toc_files (chapters : list Chapter) : gset Path :=
  list_to_set (resolve ∘ html_path <$> chapters).

Definition spine_resolved (spine_dir : Path) (spine_files : list string)
  : gset Path :=
  list_to_set
    (resolve <$> filter (λ p, path_exists p = true)
                   (joinpath spine_dir <$> spine_files)).

(** Lines 158-176: the chapters built from the table of contents and the
    flag [use_spine]. *)
Definition toc_phase (base_dir : option Path) (items : list TocItem)
    (spine_dir : option Path) (spine_files : list string)
  : outcome (list Chapter * bool) :=
  match base_dir, items with
  | Some bd, _ :: _ =>
      let chapters := toc_chapters bd items in
      match chapters, spine_files with
      | _ :: _, _ :: _ =>
          match spine_dir with
          | None => Uncaught TypeError
          | Some sd =>
              let tf := toc_files chapters in
              let sr := spine_resolved sd spine_files in
              Done (chapters,
                    negb (bool_decide (sr = ∅)) && lt_half (size tf) (size sr))
          end
      | _, _ => Done (chapters, false)
      end
  | _, _ => Done ([], true)
  end.

(** Lines 178-186: the fallback to the spine. *)
Definition spine_fallback (base_dir : option Path) (chapters : list Chapter)
    (use_spine : bool) (spine_dir : option Path) (spine_files : list string)
  : outcome (option Path * list Chapter) :=
  if use_spine then
    match spine_dir, spine_files with
    | Some sd, _ :: _ => Done (Some sd, spine_chapters sd spine_files)
    | _, _ => Exit "Error: no toc or spine found"
    end
  else Done (base_dir, chapters).

(** Line 188. *)
Definition require_chapters (chapters : list Chapter) : outcome unit :=
  match chapters with
  | [] => Exit "Error: no html chapters found"
  | _ :: _ => Done ()
  end.

(** Lines 157-188: the base directory and the chapters handed to the
    fragment resolver. *)
Definition select_chapters (base_dir : option Path) (items : list TocItem)
    (spine_dir : option Path) (spine_files : list string)
  : outcome (option Path * list Chapter) :=
  '(chapters, use_spine) ← toc_phase base_dir items spine_dir spine_files;
  '(base_dir, chapters) ←
    spine_fallback base_dir chapters use_spine spine_dir spine_files;
  _ ← require_chapters chapters;
  Done (base_dir, chapters).

(** *** Fragment ranges (lines 190-199 of [main])

    The dictionaries in [chapters] are shared with the groups of
    [by_file]: an assignment through a group is seen through [chapters].
    The list [chapters] is the store, and a group holds the positions of
    its members in it. *)

Definition group_by_file (chapters : list Chapter) : list (Path * list nat) :=
  foldl (λ d ic, by_file_append (html_path ic.2) ic.1 d) []
    (enumerate0 chapters).

(** [c["order"]] and [c["fragment"]] of the chapter at position [k]. *)
Definition order_at (st : list Chapter) (k : nat) : nat :=
  from_option order 0 (st !! k).

Definition fragment_at (st : list Chapter) (k : nat) : option string :=
  st !! k ≫= fragment.

(** [next((l["fragment"] for l in later if l["fragment"]), None)] *)
Fixpoint next_fragment (st : list Chapter) (later : list nat) : option string :=
  match later with
  | [] => None
  | k :: later' =>
      if truthy (fragment_at st k) then fragment_at st k
      else next_fragment st later'
  end.

(** The loop [for i, ch in enumerate(group)], from position [i] on;
    [group[i+1:]] is the rest of the list. *)
Fixpoint resolve_loop (i : nat) (group : list nat) (st : list Chapter)
  : list Chapter :=
  match group with
  | [] => st
  | k :: rest =>
      let end_id := next_fragment st rest in
      let st' :=
        match st !! k with
        | Some ch =>
            if truthy (fragment ch)
            then <[k := set_start_end (fragment ch) end_id ch]> st
            else if bool_decide (i = 0) && truthy end_id
                 then <[k := set_end end_id ch]> st
                 else st
        | None => st
        end in
      resolve_loop (S i) rest st'
  end.

(** The body of [for group in by_file.values()]: the group after its
    in-place sort, and the store. *)
Definition resolve_group (group : list nat) (st : list Chapter)
  : list nat * list Chapter :=
  let group := sort_by (order_at st) group in
  if negb (existsb (λ k, truthy (fragment_at st k)) group) then (group, st)
  else (group, resolve_loop 0 group st).

Definition resolve_ranges (chapters : list Chapter) : list Chapter :=
  foldl (λ st g, (resolve_group g.2 st).2) chapters (group_by_file chapters).

(** *** Conversion (lines 201-215 of [main])

    What is handed to pandoc for each chapter: the number [n] of the
    output file, the snippet fed on standard input if there is one, and
    the input argument. *)

Record Job : Type := mkJob {
  job_n : nat;
  job_chapter : Chapter;
  job_snippet : option string;
  job_inp : string;
}.

Definition chapter_snippet (ch : Chapter) : option string :=
  if bool_decide (start_id ch ≠ None) || bool_decide (end_id ch ≠ None) then
    let text := default "" (read_text (html_path ch)) in
    _extract_segment text (start_id ch) (end_id ch)
  else None.

Definition convert_step (acc : nat * list Job) (ch : Chapter) : nat * list Job :=
  let '(n, jobs) := acc in
  let snippet := chapter_snippet ch in
  let n := n + 1 in
  let inp := if truthy snippet then "-" else src ch in
  (n, jobs ++ [mkJob n ch snippet inp]).

Definition convert_jobs (chapters : list Chapter) : list Job :=
  (foldl convert_step (0, []) chapters).2.

(** The final chapter sequence: lines 157-202. *)
Definition final_chapters (base_dir : option Path) (items : list TocItem)
    (spine_dir : option Path) (spine_files : list string)
  : outcome (list Chapter) :=
  '(_, chapters) ← select_chapters base_dir items spine_dir spine_files;
  Done (sort_by order (resolve_ranges chapters)).

(** The run from the results of [_find_toc] and [_find_spine] to the
    jobs handed to pandoc. *)
Definition run (base_dir : option Path) (items : list TocItem)
    (spine_dir : option Path) (spine_files : list string)
  : outcome (list Job) :=
  chapters ← final_chapters base_dir items spine_dir spine_files;
  Done (convert_jobs chapters).

End Engine.

(** ** Auxiliary predicates of the statements *)

(** No pattern of [anchor] matches in [text] at an offset below [k]. *)
Definition no_match_before (text anchor : string) (k : nat) : bool :=
  forallb (λ p, forallb (λ j, negb (Str.startswith (Str.drop j text) p)) (seq 0 k))
    (anchor_pats anchor).

(** ** A concrete archive, for the examples

    [files] are the text files of the archive with their contents, [xmls]
    the files [ET.parse] is asked for, with what it answers.  Paths are
    POSIX paths; the examples use no percent escapes and no links, so
    [unquote] and [resolve] change nothing. *)

Fixpoint assoc {A} (k : string) (l : list (string * A)) : option A :=
  match l with
  | [] => None
  | (k', v) :: l' => if decide (k = k') then Some v else assoc k l'
  end.

Definition posix_join (a : Path) (b : string) : Path :=
  if Str.startswith b "/" then b else a +:+ "/" +:+ b.

Definition posix_parent (p : Path) : Path :=
  match Str.last_index_of "/" p with
  | Some i => Str.take i p
  | None => "."
  end.

Definition posix_name (s : string) : string :=
  match Str.last_index_of "/" s with
  | Some i => Str.drop (S i) s
  | None => s
  end.

Definition posix_stem (s : string) : string :=
  let name := posix_name s in
  match Str.last_index_of "." name with
  | Some (S i) => if S (S i) <? String.length name then Str.take (S i) name else name
  | _ => name
  end.

Definition archive (files : list (Path * string))
    (xmls : list (Path * (Element + exn))) : World := {|
  joinpath := posix_join;
  parent := posix_parent;
  stem := posix_stem;
  unquote := id;
  path_exists p := bool_decide (is_Some (assoc p files) ∨ is_Some (assoc p xmls));
  resolve := id;
  et_parse p := default (inr FileNotFoundError) (assoc p xmls);
  read_text p := assoc p files;
|}.

(** The archives of the examples. *)

(** A table of contents that names one file, a spine of three. *)
Definition ex_three_files : World :=
  archive [("OEBPS/a.html", "<h1>A</h1>"); ("OEBPS/b.html", "<h2>B</h2>");
           ("OEBPS/c.html", "<p>no heading</p>")] [].

(** A table of contents whose only entry names a missing file, and a spine
    whose file exists. *)
Definition ex_toc_missing : World :=
  archive [("OEBPS/text/ch1.html", "<h1>One</h1>")] [].

(** ** Auxiliary definitions of the proofs about fragment ranges

    The assignments of the loop of [resolve_loop] as data: which fields of
    which chapter are set, to which values.  The values depend on the
    fragments only, which no assignment changes. *)

Inductive write : Type :=
| WBoth (s e : option string)   (* ch["start_id"], ch["end_id"] = s, e *)
| WEnd (e : option string).     (* ch["end_id"] = e *)

Definition apply_write (w : write) (ch : Chapter) : Chapter :=
  match w with
  | WBoth s e => set_start_end s e ch
  | WEnd e => set_end e ch
  end.

Definition fr_at (frs : list (option string)) (k : nat) : option string :=
  frs !! k ≫= id.

Fixpoint next_fr (frs : list (option string)) (later : list nat) : option string :=
  match later with
  | [] => None
  | k :: later' => if truthy (fr_at frs k) then fr_at frs k else next_fr frs later'
  end.

Fixpoint plan (i : nat) (group : list nat) (frs : list (option string))
  : list (nat * write) :=
  match group with
  | [] => []
  | k :: rest =>
      let end_id := next_fr frs rest in
      (if truthy (fr_at frs k) then [(k, WBoth (fr_at frs k) end_id)]
       else if bool_decide (i = 0) && truthy end_id then [(k, WEnd end_id)]
            else [])
      ++ plan (S i) rest frs
  end.

Fixpoint apply_plan (ws : list (nat * write)) (st : list Chapter) : list Chapter :=
  match ws with
  | [] => st
  | (k, w) :: ws' => apply_plan ws' (alter (apply_write w) k st)
  end.

(** The net effect of a sequence of assignments on one chapter: for each
    of the two fields, the value it ends with if it was assigned. *)
Definition effect_on : Type := option (option string) * option (option string).

Definition run_effect (e : effect_on) (ch : Chapter) : Chapter :=
  mkChapter (order ch) (title ch) (src ch) (fragment ch) (html_path ch)
    (default (start_id ch) e.1) (default (end_id ch) e.2).

(** The effect of [w] followed by [e]. *)
Definition effect_after (e : effect_on) (w : write) : effect_on :=
  match w with
  | WBoth s x => (Some (default s e.1), Some (default x e.2))
  | WEnd x => (e.1, Some (default x e.2))
  end.

Fixpoint effect_of (ws : list (nat * write)) (j : nat) : effect_on :=
  match ws with
  | [] => (None, None)
  | (k, w) :: ws' =>
      if decide (k = j) then effect_after (effect_of ws' j) w
      else effect_of ws' j
  end.

(** ** The reading order as the specification words it

    The itemref children of the spine, in declared order, whose idref
    names a manifest item with a non-empty href and a media type that
    contains [html]; each gives the unquoted href of its item. *)




Section ReadingOrderSpec.
Context `{W : World}.




End ReadingOrderSpec.

(** A container file that names [OEBPS/content.opf], and archives around
    it. *)
Definition ex_container : Element :=
  Elem "{urn:oasis:names:tc:opendocument:xmlns:container}container" ∅
    [Elem "{urn:oasis:names:tc:opendocument:xmlns:container}rootfiles" ∅
       [Elem "{urn:oasis:names:tc:opendocument:xmlns:container}rootfile"
          {[ "full-path" := "OEBPS/content.opf" ]} []]].

Definition ex_package : Element :=
  Elem "{http://www.idpf.org/2007/opf}package" ∅
    [Elem "{http://www.idpf.org/2007/opf}manifest" ∅
       [Elem "{http://www.idpf.org/2007/opf}item"
          {[ "id" := "c1"; "href" := "ch1.xhtml";
             "media-type" := "application/xhtml+xml" ]} [];
        Elem "{http://www.idpf.org/2007/opf}item"
          {[ "id" := "img"; "href" := "cover.svg";
             "media-type" := "image/svg+xml" ]} [];
        Elem "{http://www.idpf.org/2007/opf}item"
          {[ "id" := "c2"; "href" := "ch2.xhtml";
             "media-type" := "application/xhtml+xml" ]} []];
     Elem "{http://www.idpf.org/2007/opf}spine" ∅
       [Elem "{http://www.idpf.org/2007/opf}itemref" {[ "idref" := "c1" ]} [];
        Elem "{http://www.idpf.org/2007/opf}itemref" {[ "idref" := "img" ]} [];
        Elem "{http://www.idpf.org/2007/opf}itemref" {[ "idref" := "gone" ]} [];
        Elem "{http://www.idpf.org/2007/opf}itemref" {[ "idref" := "c2" ]} []]].

(** The container file and the package file are there. *)
Definition ex_book : World :=
  archive [("book/OEBPS/ch1.xhtml", "<h1>One</h1>");
           ("book/OEBPS/ch2.xhtml", "<h1>Two</h1>")]
    [("book/META-INF/container.xml", inl ex_container);
     ("book/OEBPS/content.opf", inl ex_package)].

(** The container file is not well-formed XML. *)
Definition ex_malformed : World :=
  archive [] [("book/META-INF/container.xml", inr ParseError)].

(** The container file names a package file that is not there. *)
Definition ex_dangling : World :=
  archive [] [("book/META-INF/container.xml", inl ex_container)].

(** ** Titles: auxiliary definitions and the specification's wording *)




(** A file whose level-2 heading comes before its level-1 heading. *)
Definition ex_headings : World :=
  archive [("OEBPS/x.html", "<h2>Intro</h2><h1>Title</h1>");
           ("OEBPS/plain.html", "<p>no heading</p>")] [].

(** ** Fragment ranges, chapter by chapter

    What the resolver assigns to the chapter at position [k], in terms of
    the chapter list alone. *)

(** The non-empty fragments of the chapters after position [k] that
    share the file [p], in order. *)
Definition later_fragments (chs : list Chapter) (k : nat) (p : Path)
  : list string :=
  omap (λ c, if bool_decide (html_path c = p) && truthy (fragment c)
             then fragment c else None)
    (drop (S k) chs).

(** No chapter before position [k] has the file [p]. *)
Definition first_of_file (chs : list Chapter) (k : nat) (p : Path) : bool :=
  forallb (λ c, negb (bool_decide (html_path c = p))) (take k chs).

Definition range_of (chs : list Chapter) (k : nat) (ch : Chapter) : Chapter :=
  let e := head (later_fragments chs k (html_path ch)) in
  if truthy (fragment ch) then set_start_end (fragment ch) e ch
  else if first_of_file chs k (html_path ch) && bool_decide (is_Some e)
       then set_end e ch
       else ch.

(** The positions of a file in the dictionary [by_file]. *)
Definition glook (p : Path) (d : list (Path * list nat)) : list nat :=
  default [] (assoc p d).

(** The positions of the chapters of file [p]. *)
Definition file_indices (chs : list Chapter) (p : Path) (a m : nat) : list nat :=
  filter (λ i, html_path <$> chs !! i = Some p) (seq a m).

(** ** The name of an output file (line 213 of [main])

    [re.sub(r"[^a-z0-9]+", "-", title.lower()).strip("-")[:60].rstrip("-")
    or "untitled"], on titles whose code points are below 256. *)

(** [str.lower] on one code point below 256: the ASCII capitals and the
    Latin-1 capitals (all of 192..222 but the multiplication sign). *)
Definition py_lower (c : ascii) : ascii :=
  let n := nat_of_ascii c in
  if ((65 <=? n) && (n <=? 90))
     || ((192 <=? n) && (n <=? 222) && negb (n =? 215))
  then ascii_of_nat (n + 32) else c.

Fixpoint str_lower (s : string) : string :=
  match s with
  | EmptyString => EmptyString
  | String c s' => String (py_lower c) (str_lower s')
  end.

(** The class [[a-z0-9]]. *)
Definition is_az09 (c : ascii) : bool :=
  let n := nat_of_ascii c in
  ((97 <=? n) && (n <=? 122)) || ((48 <=? n) && (n <=? 57)).

(** [re.sub(r"[^a-z0-9]+", "-", s)]: every maximal run of other
    characters becomes one dash; [in_run] says that the run the next
    character would belong to has been replaced already. *)
Fixpoint sub_runs (in_run : bool) (s : string) : string :=
  match s with
  | EmptyString => EmptyString
  | String c s' =>
      if is_az09 c then String c (sub_runs false s')
      else if in_run then sub_runs true s'
           else String "-" (sub_runs true s')
  end.

(** [s.lstrip(c)] and [s.rstrip(c)] for one character [c]. *)
Fixpoint lstrip_char (c : ascii) (s : string) : string :=
  match s with
  | String b s' => if Ascii.eqb b c then lstrip_char c s' else s
  | EmptyString => EmptyString
  end.

Fixpoint rstrip_char (c : ascii) (s : string) : string :=
  match s with
  | EmptyString => EmptyString
  | String b s' =>
      match rstrip_char c s' with
      | EmptyString => if Ascii.eqb b c then EmptyString else String b EmptyString
      | r => String b r
      end
  end.

Definition safe_name (title : string) : string :=
  let s := sub_runs false (str_lower title) in
  let s := rstrip_char "-" (lstrip_char "-" s) in
  let s := rstrip_char "-" (Str.take 60 s) in
  match s with
  | EmptyString => "untitled"
  | _ => s
  end.

(** ** Navigation documents

    The elements of a navigation document carry text, which [Element]
    leaves out: a [Node] has the [text] and the [tail] of an ElementTree
    element as well ([None] when there is none). *)

Inductive Node : Type :=
  MkNode (ntag : string) (nattrib : gmap string string)
         (ntext ntail : option string) (nchildren : list Node).

Definition ntag (n : Node) : string := let 'MkNode t _ _ _ _ := n in t.
Definition nattrib (n : Node) : gmap string string :=
  let 'MkNode _ a _ _ _ := n in a.
Definition ntext (n : Node) : option string := let 'MkNode _ _ x _ _ := n in x.
Definition ntail (n : Node) : option string := let 'MkNode _ _ _ y _ := n in y.
Definition nchildren (n : Node) : list Node := let 'MkNode _ _ _ _ c := n in c.

(** The element without its text. *)
Fixpoint erase (n : Node) : Element :=
  let 'MkNode t a _ _ cs := n in
  Elem t a ((fix go (l : list Node) : list Element :=
               match l with
               | [] => []
               | c :: l' => erase c :: go l'
               end) cs).

(** [list(n.iter())]: the element and the elements below it, in document
    order. *)
Fixpoint node_iter (n : Node) : list Node :=
  let 'MkNode _ _ _ _ cs := n in
  n :: (fix go (l : list Node) : list Node :=
          match l with
          | [] => []
          | c :: l' => node_iter c ++ go l'
          end) cs.

(** What [.//] ranges over: the elements below [n]. *)
Definition node_descendants (n : Node) : list Node := tail (node_iter n).

(** ["".join(n.itertext())] *)
Fixpoint itertext (n : Node) : string :=
  let 'MkNode _ _ x _ cs := n in
  default "" x
  +:+ (fix go (l : list Node) : string :=
         match l with
         | [] => ""
         | c :: l' => itertext c +:+ default "" (ntail c) +:+ go l'
         end) cs.

(** The truth value of an element, [len(n) != 0]: an element without
    child elements is false. *)
Definition node_bool (n : Node) : bool :=
  match nchildren n with
  | [] => false
  | _ :: _ => true
  end.

(** [href.partition("#")]: the parts before and after the first [#]. *)
Definition partition_hash (href : string) : string * string :=
  match Str.index_of "#" href with
  | Some i => (Str.take i href, Str.drop (S i) href)
  | None => (href, "")
  end.

(** [frag or None] *)
Definition or_none (s : string) : option string :=
  match s with
  | EmptyString => None
  | _ => Some s
  end.

(** [s or "untitled"] *)
Definition or_untitled (s : string) : string :=
  match s with
  | EmptyString => "untitled"
  | _ => s
  end.

(** The entry an href gives with a title, if its file part is not empty
    (lines 53-54 and 71-72). *)
Definition href_entry (title href : string) : list TocItem :=
  let '(fp, frag) := partition_hash href in
  match fp with
  | EmptyString => []
  | _ => [(title, fp, or_none frag)]
  end.

Definition ncx_ns (local : string) : string :=
  "{http://www.daisy.org/z3986/2005/ncx/}" +:+ local.

(** One iteration of the loop of [_parse_ncx]. *)
Definition ncx_step (items : list TocItem) (nav : Node) : list TocItem :=
  match head (filter (λ n, ntag n = ncx_ns "text") (node_descendants nav)),
        head (filter (λ n, ntag n = ncx_ns "content") (node_descendants nav)) with
  | Some te, Some ce =>
      match default "" (nattrib ce !! "src") with
      | EmptyString => items
      | href => items ++ href_entry (or_untitled (default "" (ntext te))) href
      end
  | _, _ => items
  end.

Definition ncx_items (root : Node) : list TocItem :=
  foldl ncx_step []
    (filter (λ n, ntag n = ncx_ns "navPoint") (node_descendants root)).


(** [s.split()]: the maximal runs of characters that are not white
    space; [cur] is the run being read. *)
Fixpoint split_go (cur : option string) (s : string) : list string :=
  match s with
  | EmptyString => option_list cur
  | String c s' =>
      if is_space c then option_list cur ++ split_go None s'
      else split_go (Some (default "" cur +:+ String c "")) s'
  end.

Definition py_split (s : string) : list string := split_go None s.

(** The entry of a list item of a navigation document (lines 69-72): its
    first [a] element counts only if it has a child element, since the
    test [if a] is the truth value of the element. *)
Definition nav_li_entry (li : Node) : list TocItem :=
  match head (filter (λ s, _ln (ntag s) = "a") (node_iter li)) with
  | Some a =>
      if node_bool a then
        match default "" (nattrib a !! "href") with
        | EmptyString => []
        | href => href_entry (or_untitled (strip (itertext a))) href
        end
      else []
  | None => []
  end.

Definition is_list_tag (n : Node) : bool :=
  bool_decide (_ln (ntag n) = "ol") || bool_decide (_ln (ntag n) = "ul").

(** [walk(node)], as the entries it appends to [items]. *)
Fixpoint walk (node : Node) : list TocItem :=
  let 'MkNode _ _ _ _ cs := node in
  (fix over_children (l : list Node) : list TocItem :=
     match l with
     | [] => []
     | child :: l' =>
         (if is_list_tag child then walk child
          else if bool_decide (_ln (ntag child) = "li") then
            nav_li_entry child
            ++ (let 'MkNode _ _ _ _ subs := child in
                (fix over_subs (l2 : list Node) : list TocItem :=
                   match l2 with
                   | [] => []
                   | sub :: l2' =>
                       (if is_list_tag sub then walk sub else [])
                       ++ over_subs l2'
                   end) subs)
          else [])
         ++ over_children l'
     end) cs.

(** A [nav] element that has an attribute with local name [type] and
    [toc] in its value. *)
Definition is_toc_nav (c : Node) : bool :=
  existsb (λ kv, bool_decide (_ln kv.1 = "type")
                 && bool_decide (is_Some (Str.index_of "toc" kv.2)))
    (map_to_list (nattrib c)).

(** Lines 59-61: the [nav] element the entries are read from. *)
Definition nav_element (root : Node) : option Node :=
  let navs := filter (λ el, _ln (ntag el) = "nav") (node_iter root) in
  match head (filter (λ c, is_toc_nav c = true) navs) with
  | Some c => Some c
  | None => head navs
  end.

Definition nav_items (root : Node) : list TocItem :=
  match nav_element root with
  | Some nav_el => walk nav_el
  | None => []
  end.

(** [ET.parse] with the text of the elements.  It is the same call as
    [et_parse]: what [et_parse] answers is the tree without its text. *)
Class NodeWorld (W : World) : Type := {
  et_parse_node : Path → Node + exn;
  et_parse_erase p : et_parse p = sum_map erase id (et_parse_node p);
}.

(** The manifest as the dictionary it is, with the order of its keys: a
    key keeps the place of its first item and has the value of its last. *)
Fixpoint od_insert {A} (k : string) (v : A) (d : list (string * A))
  : list (string * A) :=
  match d with
  | [] => [(k, v)]
  | (k', v') :: d' =>
      if decide (k = k') then (k', v) :: d' else (k', v') :: od_insert k v d'
  end.

Definition manifest_od (items : list Element) : list (string * Element) :=
  foldl (λ m item,
           match attrib item !! "id" with
           | Some id => od_insert id item m
           | None => m
           end) [] items.

Section Toc.
Context `{NW : NodeWorld}.

Definition io_parse_node (p : Path) : IO Node := ([EParse p], et_parse_node p).

(** [_parse_xml] where the text of the document is used. *)
Definition _parse_xml_node (path : Path) : IO (option Node) :=
  io_catch (let* t := io_parse_node path in io_ret (Some t))
    (λ e, bool_decide (e = ParseError) || bool_decide (e = FileNotFoundError))
    None.

Definition _parse_ncx (ncx_path : Path) : IO (Path * list TocItem) :=
  let* tree := _parse_xml_node ncx_path in
  match tree with
  | None => io_ret (parent ncx_path, [])
  | Some root => io_ret (parent ncx_path, ncx_items root)
  end.

Definition _parse_nav (nav_path : Path) : IO (Path * list TocItem) :=
  let* tree := _parse_xml_node nav_path in
  match tree with
  | None => io_ret (parent nav_path, [])
  | Some root => io_ret (parent nav_path, nav_items root)
  end.

(** [_parse_opf] with the manifest in the order of its keys. *)
Definition _parse_opf_od (root : Path)
  : IO (option Path * list (string * Element) * option Element) :=
  let* opf := _find_opf root in
  match opf with
  | None => io_ret (opf, [], None)
  | Some o =>
      let* tree := _parse_xml o in
      match tree with
      | None => io_ret (opf, [], None)
      | Some pkg =>
          let mel := find_child (opf_ns "manifest") pkg in
          let manifest := manifest_od (from_option children [] mel) in
          let spine_el := find_child (opf_ns "spine") pkg in
          io_ret (opf, manifest, spine_el)
      end
  end.

Definition is_nav_item (it : Element) : bool :=
  bool_decide ("nav" ∈ py_split (default "" (attrib it !! "properties"))).

(** Lines 82-85: the first navigation document of the manifest that
    gives entries. *)
Fixpoint try_navs (dir : Path) (its : list Element)
  : IO (option (Path * list TocItem)) :=
  match its with
  | [] => io_ret None
  | it :: rest =>
      if is_nav_item it then
        match attrib it !! "href" with
        | Some (String _ _ as href) =>
            let* r := _parse_nav (joinpath dir href) in
            match r.2 with
            | _ :: _ => io_ret (Some r)
            | [] => try_navs dir rest
            end
        | _ => try_navs dir rest
        end
      else try_navs dir rest
  end.

(** Lines 87-89: the manifest item of the NCX file. *)
Definition ncx_item (manifest : list (string * Element))
    (spine_el : option Element) : option Element :=
  let by_toc :=
    match spine_el with
    | Some sp =>
        match attrib sp !! "toc" with
        | Some (String _ _ as tid) => assoc tid manifest
        | _ => None
        end
    | None => None
    end in
  match by_toc with
  | Some it => Some it
  | None =>
      head (filter (λ it, attrib it !! "media-type"
                          = Some "application/x-dtbncx+xml") manifest.*2)
  end.

(** Lines 90-93. *)
Definition try_ncx (dir : Path) (ncx : option Element)
  : IO (option Path * list TocItem) :=
  match ncx with
  | Some it =>
      match attrib it !! "href" with
      | Some (String _ _ as href) =>
          let* r := _parse_ncx (joinpath dir href) in
          match r.2 with
          | _ :: _ => io_ret (Some r.1, r.2)
          | [] => io_ret (None, [])
          end
      | _ => io_ret (None, [])
      end
  | None => io_ret (None, [])
  end.

Definition _find_toc (root : Path) : IO (option Path * list TocItem) :=
  let* r := _parse_opf_od root in
  let '(opf, manifest, spine_el) := r in
  match opf with
  | None => io_ret (None, [])
  | Some o =>
      let* nav := try_navs (parent o) manifest.*2 in
      match nav with
      | Some (base, items) => io_ret (Some base, items)
      | None => try_ncx (parent o) (ncx_item manifest spine_el)
      end
  end.

(** Lines 154-188 of [main]: from the unpacked archive to the chapters.
    The effects recorded are those of the two parsers. *)
Definition chapters_of_archive (t : Path)
  : IO (outcome (option Path * list Chapter)) :=
  let* toc := _find_toc t in
  let* spine := _find_spine t in
  io_ret (select_chapters toc.1 toc.2 spine.1 spine.2).

End Toc.

(** An archive whose XML files are given with their text. *)
Definition node_archive (files : list (Path * string))
    (xmls : list (Path * (Node + exn))) : World := {|
  joinpath := posix_join;
  parent := posix_parent;
  stem := posix_stem;
  unquote := id;
  path_exists p := bool_decide (is_Some (assoc p files) ∨ is_Some (assoc p xmls));
  resolve := id;
  et_parse p := sum_map erase id (default (inr FileNotFoundError) (assoc p xmls));
  read_text p := assoc p files;
|}.

#[export] Instance node_archive_nodes files xmls
  : NodeWorld (node_archive files xmls) :=
  Build_NodeWorld (node_archive files xmls)
    (λ p, default (inr FileNotFoundError) (assoc p xmls))
    (λ p, eq_refl).

(** The entries of the table of contents the program relies on: a title
    and a file part that are not empty, no [#] in the file part, and a
    fragment that is absent rather than empty. *)
Definition toc_item_wf (it : TocItem) : Prop :=
  it.1.1 ≠ "" ∧ it.1.2 ≠ "" ∧ Str.has_char "#" it.1.2 = false ∧ it.2 ≠ Some "".

(** What [walk] does with one child of the node it is given. *)
Definition walk_child (child : Node) : list TocItem :=
  if is_list_tag child then walk child
  else if bool_decide (_ln (ntag child) = "li") then
    nav_li_entry child ++ (filter (λ sub, is_list_tag sub = true) (nchildren child) ≫= walk)
  else [].

(** Documents of the examples. *)
Definition xh (local : string) (a : gmap string string) (x : option string)
    (cs : list Node) : Node :=
  MkNode ("{http://www.w3.org/1999/xhtml}" +:+ local) a x None cs.

Definition nx (local : string) (a : gmap string string) (x : option string)
    (cs : list Node) : Node :=
  MkNode ("{http://www.daisy.org/z3986/2005/ncx/}" +:+ local) a x None cs.

(** A navigation document: the first link wraps its text in a [span], the
    second is plain text, the third item is a heading over a nested
    list. *)
Definition ex_nav : Node :=
  xh "html" ∅ None
    [xh "body" ∅ None
       [xh "nav" {[ "{http://www.idpf.org/2007/ops}type" := "toc" ]} None
          [xh "ol" ∅ None
             [xh "li" ∅ None
                [xh "a" {[ "href" := "ch1.xhtml" ]} None
                   [xh "span" ∅ (Some "One") []]];
              xh "li" ∅ None
                [xh "a" {[ "href" := "ch2.xhtml#s2" ]} (Some "Two") []];
              xh "li" ∅ None
                [xh "span" ∅ (Some "Part") [];
                 xh "ol" ∅ None
                   [xh "li" ∅ None
                      [xh "a" {[ "href" := "ch3.xhtml#x" ]} (Some " ")
                         [MkNode "{http://www.w3.org/1999/xhtml}b" ∅
                            (Some "Three") (Some " ") []]]]]]]]].

(** A navigation document whose links are all plain text. *)
Definition ex_nav_plain : Node :=
  xh "html" ∅ None
    [xh "body" ∅ None
       [xh "nav" {[ "{http://www.idpf.org/2007/ops}type" := "toc" ]} None
          [xh "ol" ∅ None
             [xh "li" ∅ None
                [xh "a" {[ "href" := "ch1.xhtml" ]} (Some "One") []];
              xh "li" ∅ None
                [xh "a" {[ "href" := "ch2.xhtml" ]} (Some "Two") []]]]]].

(** An NCX file: a point with a nested point whose label is empty, and a
    point whose target has no file part. *)
Definition ex_ncx : Node :=
  nx "ncx" ∅ None
    [nx "navMap" ∅ None
       [nx "navPoint" {[ "id" := "n1" ]} None
          [nx "navLabel" ∅ None [nx "text" ∅ (Some "One") []];
           nx "content" {[ "src" := "ch1.xhtml" ]} None [];
           nx "navPoint" {[ "id" := "n2" ]} None
             [nx "navLabel" ∅ None [nx "text" ∅ None []];
              nx "content" {[ "src" := "ch1.xhtml#s2" ]} None []]];
        nx "navPoint" {[ "id" := "n3" ]} None
          [nx "navLabel" ∅ None [nx "text" ∅ (Some "Orphan") []];
           nx "content" {[ "src" := "#top" ]} None []]]].

Definition opf (local : string) (a : gmap string string) (cs : list Node)
  : Node :=
  MkNode ("{http://www.idpf.org/2007/opf}" +:+ local) a None None cs.

Definition ex_container_node : Node :=
  MkNode "{urn:oasis:names:tc:opendocument:xmlns:container}container" ∅ None None
    [MkNode "{urn:oasis:names:tc:opendocument:xmlns:container}rootfiles" ∅ None None
       [MkNode "{urn:oasis:names:tc:opendocument:xmlns:container}rootfile"
          {[ "full-path" := "OEBPS/content.opf" ]} None None []]].

(** A package with a navigation document and an NCX file. *)
Definition ex_package_toc : Node :=
  opf "package" ∅
    [opf "manifest" ∅
       [opf "item" {[ "id" := "c1"; "href" := "ch1.xhtml";
                      "media-type" := "application/xhtml+xml" ]} [];
        opf "item" {[ "id" := "nav"; "href" := "nav.xhtml";
                      "properties" := "scripted nav";
                      "media-type" := "application/xhtml+xml" ]} [];
        opf "item" {[ "id" := "ncx"; "href" := "toc.ncx";
                      "media-type" := "application/x-dtbncx+xml" ]} []];
     opf "spine" {[ "toc" := "ncx" ]}
       [opf "itemref" {[ "idref" := "c1" ]} []]].

Definition ex_toc_book (nav : Node) : World :=
  node_archive [("book/OEBPS/ch1.xhtml", "<h1>One</h1>")]
    [("book/META-INF/container.xml", inl ex_container_node);
     ("book/OEBPS/content.opf", inl ex_package_toc);
     ("book/OEBPS/nav.xhtml", inl nav);
     ("book/OEBPS/toc.ncx", inl ex_ncx)].

(** No container file at all. *)
Definition ex_no_container : World := node_archive [] [].


(** A chapter that starts at an anchor of its file. *)
Definition ex_anchored_world : World :=
  archive [("OEBPS/b.html", "<p>a</p><h2 id='x'>B</h2>")] [].

Definition ex_anchored_chapter : Chapter :=
  mkChapter 1 "B" "b.html" (Some "x") "OEBPS/b.html" (Some "x") None.

Definition ex_anchored_job : Job :=
  mkJob 1 ex_anchored_chapter (Some "<h2 id='x'>B</h2>") "-".

(** * Properties *)

Example rfind0_examples :
  Str.rfind0 "abc" "<" 2 = (-1)%Z
  ∧ Str.rfind0 "a<b<c" "<" 3 = 1%Z
  ∧ Str.rfind0 "a<b<c" "<" 4 = 3%Z
  ∧ Str.find "a<b<c" "<c" = 3%Z
  ∧ Str.find "a<b<c" "x" = (-1)%Z
  ∧ Str.slice "a<b<c" 1 3 = "<b".
Proof. by vm_compute. Qed.

Example find_anchor_ex1 :
  _find_anchor ("<p id=" +:+ Str.dquoted "a" +:+ ">X</p><p id='b'>Y</p>") (Some "b")
  = Some 15%Z.
Proof. vm_compute. reflexivity. Qed.

Example extract_ex1 :
  _extract_segment ("<p id=" +:+ Str.dquoted "a" +:+ ">X</p><p id='b'>Y</p>")
    (Some "a") (Some "b")
  = Some ("<p id=" +:+ Str.dquoted "a" +:+ ">X</p>").
Proof. vm_compute. reflexivity. Qed.

(** ** Facts about strings *)

Module StrFacts.
Import Str.

Lemma app_cons c s t : String c s +:+ t = String c (s +:+ t).
Proof. reflexivity. Qed.

Lemma app_nil_l t : "" +:+ t = t.
Proof. reflexivity. Qed.

Lemma app_nil_r s : s +:+ "" = s.
Proof. induction s as [|c s IH]; [done|]. by rewrite app_cons, IH. Qed.

Lemma app_assoc s t u : (s +:+ t) +:+ u = s +:+ t +:+ u.
Proof. induction s as [|c s IH]; [done|]. by rewrite !app_cons, IH. Qed.

Lemma length_app s t :
  String.length (s +:+ t) = String.length s + String.length t.
Proof. induction s as [|c s IH]; [done|]. rewrite app_cons. simpl. by rewrite IH. Qed.

Lemma drop_app s t : drop (String.length s) (s +:+ t) = t.
Proof. induction s as [|c s IH]; [by destruct t|]. by rewrite app_cons. Qed.

Lemma take_app s t : take (String.length s) (s +:+ t) = s.
Proof.
  induction s as [|c s IH]; [by destruct t|].
  rewrite app_cons. simpl. by rewrite IH.
Qed.


Lemma startswith_inv t p :
  startswith t p = true → ∃ r, t = p +:+ r.
Proof.
  revert t; induction p as [|c p IH]; intros t Hs; [by exists t|].
  destruct t as [|b t]; [done|]. simpl in Hs.
  destruct (Ascii.eqb c b) eqn:E; [|done].
  apply Ascii.eqb_eq in E as ->.
  destruct (IH _ Hs) as [r ->]. by exists r.
Qed.


Lemma index_of_Some p t i :
  index_of p t = Some i →
  startswith (drop i t) p = true ∧ i ≤ String.length t.
Proof.
  revert i; induction t as [|c t IH]; intros i; cbn [index_of].
  - destruct (startswith "" p) eqn:E; [|done]. intros [= <-]. split; [exact E|done].
  - destruct (startswith (String c t) p) eqn:E.
    + intros [= <-]. split; [exact E|simpl; lia].
    + destruct (index_of p t) as [i'|]; [|done].
      intros [= <-]. destruct (IH i' eq_refl) as [? ?]. simpl. split; [done|lia].
Qed.



End StrFacts.

(** ** Anchors and segments *)

Section Anchors.
Import Str StrFacts.

Lemma no_match_before_spec text a k :
  no_match_before text a k = true ↔
  ∀ p j, p ∈ anchor_pats a → j < k → startswith (drop j text) p = false.
Proof.
  unfold no_match_before. rewrite forallb_forall. split.
  - intros Hall p j Hp Hj. apply list_elem_of_In in Hp.
    specialize (Hall p Hp). rewrite forallb_forall in Hall.
    apply negb_true_iff, Hall, in_seq. lia.
  - intros Hall p Hp. apply forallb_forall. intros j Hj%in_seq.
    apply negb_true_iff, Hall; [by apply list_elem_of_In|lia].
Qed.






(** The offset [_find_anchor] returns lies inside the text. *)
Lemma startswith_length t p :
  startswith t p = true → String.length p ≤ String.length t.
Proof.
  intros [r ->]%startswith_inv. rewrite length_app. lia.
Qed.

Lemma length_drop n t : String.length (drop n t) = String.length t - n.
Proof.
  revert t; induction n as [|n IH]; intros [|c t]; simpl; try done; lia.
Qed.

Lemma length_take n t : String.length (take n t) = n `min` String.length t.
Proof.
  revert t; induction n as [|n IH]; intros [|c t]; simpl; try done.
  by rewrite IH.
Qed.

Lemma last_index_of_lt p t i :
  p ≠ "" → last_index_of p t = Some i → i < String.length t.
Proof.
  intros Hp. revert i; induction t as [|c t IH]; intros i; cbn [last_index_of].
  - destruct p; [done|]. done.
  - destruct (last_index_of p t) as [i'|].
    + intros [= <-]. specialize (IH i' eq_refl). simpl. lia.
    + destruct (startswith (String c t) p); [|done]. intros [= <-]. simpl. lia.
Qed.

Lemma py_min_elem z zs : py_min z zs ∈ z :: zs.
Proof.
  unfold py_min. revert z; induction zs as [|y zs IH]; intros z; simpl.
  - apply elem_of_cons; by left.
  - specialize (IH (Z.min z y)). apply elem_of_cons in IH as [->|IH].
    + destruct (Z.min_spec z y) as [[_ ->]|[_ ->]]; set_solver.
    + set_solver.
Qed.

Lemma find_anchor_range text anchor s :
  _find_anchor text anchor = Some s → (0 ≤ s < len text)%Z.
Proof.
  unfold _find_anchor. destruct anchor as [[|c a]|]; [done| |done].
  set (pats := anchor_pats _).
  destruct (filter _ _) as [|p0 ps] eqn:Hf; [done|].
  assert (Hpos : (0 ≤ py_min p0 ps < len text)%Z).
  { pose proof (py_min_elem p0 ps) as Hin. rewrite <- Hf in Hin.
    apply list_elem_of_filter in Hin as [Hne Hin].
    apply list_elem_of_fmap in Hin as (p & Hp & Hin).
    rewrite Hp in *. unfold find in *.
    destruct (index_of p text) as [i|] eqn:Hi; [|done].
    apply index_of_Some in Hi as [Hi Hlen]. apply startswith_length in Hi.
    rewrite length_drop in Hi.
    assert (0 < String.length p).
    { subst pats. unfold anchor_pats in Hin.
      repeat (apply elem_of_cons in Hin as [->|Hin]; [simpl; lia|]).
      by apply elem_of_nil in Hin. }
    unfold len. lia. }
  intros [= <-]. case_bool_decide as Hlt; [|done].
  unfold rfind0 in *. destruct (last_index_of _ _) as [i|] eqn:Hi; [|done].
  apply last_index_of_lt in Hi; [|done]. rewrite length_take in Hi.
  unfold len in *. lia.
Qed.

(** The segment when both anchors resolve. *)
Lemma extract_segment_resolved text sid eid s e :
  _find_anchor text (Some sid) = Some s →
  _find_anchor text (Some eid) = Some e →
  _extract_segment text (Some sid) (Some eid)
  = Some (if bool_decide (s < e)%Z then slice text s e
          else slice text s (len text))
  ∧ (s < len text)%Z
  ∧ slice text s (len text) ≠ "".
Proof.
  intros Hs He.
  pose proof (find_anchor_range _ _ _ Hs) as Hrs.
  pose proof (find_anchor_range _ _ _ He) as Hre.
  assert (Hne : slice text s (len text) ≠ "").
  { unfold slice. intros Heq. apply (f_equal String.length) in Heq.
    rewrite length_take, length_drop in Heq. unfold len in *. simpl in Heq. lia. }
  split; [|split; [lia|done]].
  unfold _extract_segment.
  assert (truthy (Some sid) = true) as ->.
  { unfold _find_anchor in Hs. by destruct sid. }
  assert (truthy (Some eid) = true) as ->.
  { unfold _find_anchor in He. by destruct eid. }
  cbn [negb andb]. rewrite Hs, He.
  destruct (bool_decide (s < e)%Z) eqn:Hlt.
  - apply bool_decide_eq_true in Hlt.
    rewrite (bool_decide_eq_true_2 (e ≠ 0%Z)) by lia. cbn [andb].
    by rewrite (bool_decide_eq_true_2 (s < e)%Z).
  - rewrite andb_false_r. by rewrite (bool_decide_eq_true_2 (s < len text)%Z) by lia.
Qed.

(** C3, as the code has it.  When both anchors resolve, to [s] and [e]:
    if [s < e] the segment is [text[s:e]]; if [e <= s] the end anchor is
    ignored and the segment is [text[s:]], which is not empty. *)
Theorem extract_segment_both_resolved text sid eid s e :
  _find_anchor text (Some sid) = Some s →
  _find_anchor text (Some eid) = Some e →
  _extract_segment text (Some sid) (Some eid)
  = Some (if bool_decide (s < e)%Z then slice text s e
          else slice text s (len text))
  ∧ (s < len text)%Z
  ∧ slice text s (len text) ≠ "".
Proof. apply extract_segment_resolved. Qed.

Lemma extract_segment_both_resolved_witness :
  _extract_segment "z<p id='b'>Y</p><p id='a'>X</p>" (Some "a") (Some "b")
  = Some "<p id='a'>X</p>".
Proof.
  exact (proj1 (extract_segment_both_resolved
                  "z<p id='b'>Y</p><p id='a'>X</p>" "a" "b" 16%Z 1%Z
                  eq_refl eq_refl)).
Defined.

(** C3 as the claim states it fails: the start anchor resolves to offset
    16, the end anchor to offset 1, and the result is the text from offset
    16 to the end, not an empty segment. *)
Lemma extract_segment_start_after_end_not_empty :
  let text := "z<p id='b'>Y</p><p id='a'>X</p>" in
  _find_anchor text (Some "a") = Some 16%Z
  ∧ _find_anchor text (Some "b") = Some 1%Z
  ∧ (1 ≤ 16)%Z
  ∧ _extract_segment text (Some "a") (Some "b") = Some "<p id='a'>X</p>"
  ∧ _extract_segment text (Some "a") (Some "b") ≠ Some ""
  ∧ _extract_segment text (Some "a") (Some "b") ≠ None.
Proof. by vm_compute. Qed.



End Anchors.

(** ** Chapter selection *)

Section Selection.
Context `{W : World}.

Lemma foldl_snoc_bind {A B} (step : list B → A → list B) :
  (∀ acc x, step acc x = acc ++ step [] x) →
  ∀ l acc, foldl step acc l = acc ++ (l ≫= step []).
Proof.
  intros Hstep l. induction l as [|x l IH]; intros acc; cbn [foldl].
  - by rewrite app_nil_r.
  - rewrite IH, Hstep, bind_cons. by rewrite <- (assoc_L (++)).
Qed.

Lemma toc_step_snoc bd acc ie : toc_step bd acc ie = acc ++ toc_step bd [] ie.
Proof.
  destruct ie as [i [[t fp] fr]]. unfold toc_step.
  destruct (has_html_ext _); simpl; [|by rewrite app_nil_r].
  destruct (path_exists _); simpl; [done|by rewrite app_nil_r].
Qed.

Lemma spine_chapter_step_snoc bd acc ie :
  spine_chapter_step bd acc ie = acc ++ spine_chapter_step bd [] ie.
Proof.
  destruct ie as [i s]. unfold spine_chapter_step.
  destruct (path_exists _); simpl; [done|by rewrite app_nil_r].
Qed.

Lemma toc_chapters_bind bd items :
  toc_chapters bd items = enumerate1 items ≫= toc_step bd [].
Proof. unfold toc_chapters. by rewrite (foldl_snoc_bind _ (toc_step_snoc bd)). Qed.

Lemma spine_chapters_bind bd sf :
  spine_chapters bd sf = enumerate1 sf ≫= spine_chapter_step bd [].
Proof.
  unfold spine_chapters.
  by rewrite (foldl_snoc_bind _ (spine_chapter_step_snoc bd)).
Qed.

Lemma elem_of_enumerate_from {A} (l : list A) n i x :
  (i, x) ∈ zip (seq n (length l)) l ↔ n ≤ i ∧ l !! (i - n) = Some x.
Proof.
  revert n. induction l as [|y l IH]; intros n; simpl.
  - split; [by intros ?%elem_of_nil|]. by intros [_ ?].
  - rewrite elem_of_cons, IH. split.
    + intros [[= -> ->]|[Hn Hl]].
      * split; [lia|]. by rewrite Nat.sub_diag.
      * split; [lia|]. by replace (i - n) with (S (i - S n)) by lia.
    + intros [Hn Hl]. destruct (decide (i = n)) as [->|Hne].
      * left. rewrite Nat.sub_diag in Hl. by injection Hl as ->.
      * right. split; [lia|]. by replace (i - n) with (S (i - S n)) in Hl by lia.
Qed.

Lemma elem_of_enumerate1 {A} (l : list A) i x :
  (i, x) ∈ enumerate1 l ↔ ∃ j, i = S j ∧ l !! j = Some x.
Proof.
  unfold enumerate1. rewrite elem_of_enumerate_from. split.
  - intros [Hi Hl]. exists (i - 1). split; [lia|done].
  - intros (j & -> & Hl). split; [lia|]. by replace (S j - 1) with j by lia.
Qed.

(** A spine chapter exists for each spine file that exists. *)
Lemma spine_chapters_nonempty sd sf s :
  s ∈ sf → path_exists (joinpath sd s) = true → spine_chapters sd sf ≠ [].
Proof.
  intros Hs Hex. apply list_elem_of_lookup in Hs as [j Hj].
  rewrite spine_chapters_bind. intros Hnil.
  assert (Hin : mkChapter (S j) (spine_title (joinpath sd s) s) s None
                  (joinpath sd s) None None
                ∈ enumerate1 sf ≫= spine_chapter_step sd []).
  { apply list_elem_of_bind. exists (S j, s). split.
    - unfold spine_chapter_step. rewrite Hex. simpl. apply list_elem_of_singleton. done.
    - apply elem_of_enumerate1. by exists j. }
  rewrite Hnil in Hin. by apply elem_of_nil in Hin.
Qed.

Lemma spine_resolved_nonempty sd sf :
  spine_resolved sd sf ≠ ∅ →
  ∃ s, s ∈ sf ∧ path_exists (joinpath sd s) = true.
Proof.
  unfold spine_resolved. intros Hne.
  destruct (filter _ _) as [|p ps] eqn:Hf; [done|].
  assert (Hp : p ∈ filter (λ p, path_exists p = true) (joinpath sd <$> sf)).
  { rewrite Hf. apply elem_of_cons. by left. }
  apply list_elem_of_filter in Hp as [Hex Hp].
  apply list_elem_of_fmap in Hp as (s & -> & Hs). by exists s.
Qed.



(** Where the structure resolution ends in [sys.exit]: with entries in the
    table of contents, exactly when none of them gives a chapter; without,
    exactly when the spine gives none. *)
Lemma select_chapters_exit_iff bd items sd sf :
  (sd = None → sf = []) →
  (∃ m, select_chapters bd items sd sf = Exit m) ↔
  match bd, items with
  | Some b, _ :: _ => toc_chapters b items = []
  | _, _ => match sd with
            | Some d => spine_chapters d sf = []
            | None => True
            end
  end.
Proof.
  intros Hsd. unfold select_chapters, toc_phase, spine_fallback, require_chapters.
  destruct sd as [d|]; [|rewrite (Hsd eq_refl)].
  - assert (Hspine :
      (∃ m, ('(base_dir, chapters) ←
               match sf with
               | _ :: _ => Done (Some d, spine_chapters d sf)
               | [] => Exit "Error: no toc or spine found"
               end;
             _ ← require_chapters chapters; Done (base_dir, chapters))
            = @Exit (option Path * list Chapter) m)
      ↔ spine_chapters d sf = []).
    { destruct sf as [|s sf']; [split; [done|by eexists]|].
      simpl. destruct (spine_chapters d (s :: sf')) eqn:E; [split; [done|by eexists]|].
      split; [by intros [m ?]|done]. }
    destruct bd as [b|]; [destruct items as [|it items']|];
      [exact Hspine| |exact Hspine].
    destruct (toc_chapters b (it :: items')) as [|c cs] eqn:Ec.
    { split; [done|]. intros _. by eexists. }
    destruct sf as [|s sf']; [split; [by intros [m ?]|done]|].
    simpl. destruct (negb _ && _) eqn:Euse.
    + apply andb_true_iff in Euse as [Hne _].
      apply negb_true_iff, bool_decide_eq_false in Hne.
      apply spine_resolved_nonempty in Hne as (x & Hx & Hex).
      pose proof (spine_chapters_nonempty _ _ _ Hx Hex) as Hsp.
      destruct (spine_chapters d (s :: sf')); [done|].
      split; [by intros [m ?]|done].
    + split; [by intros [m ?]|done].
  - destruct bd as [b|]; [destruct items as [|it items']|].
    + split; [done|]. intros _. by eexists.
    + destruct (toc_chapters b (it :: items')) as [|c cs] eqn:Ec.
      * split; [done|]. intros _. by eexists.
      * split; [by intros [m ?]|done].
    + split; [done|]. intros _. by eexists.
Qed.

(** C1: the run at the failing input.  The only entry of the table of
    contents names a file that does not exist; the spine names a file that
    does, so it yields a chapter; the run ends in [sys.exit] all the same,
    because the spine is not consulted when the table of contents has
    entries and every one of them was dropped. *)
Theorem select_chapters_aborts_with_usable_spine :
  toc_chapters (W := ex_toc_missing) "OEBPS" [("One", "ch1.html", None)] = []
  ∧ spine_chapters (W := ex_toc_missing) "OEBPS" ["text/ch1.html"]
    = [mkChapter 1 "One" "text/ch1.html" None "OEBPS/text/ch1.html" None None]
  ∧ select_chapters (W := ex_toc_missing)
      (Some "OEBPS") [("One", "ch1.html", None)]
      (Some "OEBPS") ["text/ch1.html"]
    = Exit "Error: no html chapters found".
Proof. by vm_compute. Qed.


(** The chapters built from the table of contents, entry by entry. *)
Lemma elem_of_toc_chapters bd items ch :
  ch ∈ toc_chapters bd items ↔
  ∃ j title fp frag,
    items !! j = Some (title, fp, frag)
    ∧ has_html_ext (unquote fp) = true
    ∧ path_exists (joinpath bd (unquote fp)) = true
    ∧ ch = mkChapter (S j) title (unquote fp) frag
             (joinpath bd (unquote fp)) None None.
Proof.
  rewrite toc_chapters_bind, list_elem_of_bind. split.
  - intros ([i [[t fp] fr]] & Hch & Hin).
    apply elem_of_enumerate1 in Hin as (j & -> & Hj).
    exists j, t, fp, fr. unfold toc_step in Hch.
    destruct (has_html_ext _); simpl in Hch; [|by apply elem_of_nil in Hch].
    destruct (path_exists _); simpl in Hch; [|by apply elem_of_nil in Hch].
    apply list_elem_of_singleton in Hch. done.
  - intros (j & t & fp & fr & Hj & Hext & Hex & ->).
    exists (S j, (t, fp, fr)). split.
    + unfold toc_step. rewrite Hext, Hex. simpl. by apply list_elem_of_singleton.
    + apply elem_of_enumerate1. by exists j.
Qed.

Lemma elem_of_spine_chapters sd sf ch :
  ch ∈ spine_chapters sd sf ↔
  ∃ j s,
    sf !! j = Some s
    ∧ path_exists (joinpath sd s) = true
    ∧ ch = mkChapter (S j) (spine_title (joinpath sd s) s) s None
             (joinpath sd s) None None.
Proof.
  rewrite spine_chapters_bind, list_elem_of_bind. split.
  - intros ([i s] & Hch & Hin).
    apply elem_of_enumerate1 in Hin as (j & -> & Hj).
    exists j, s. unfold spine_chapter_step in Hch.
    destruct (path_exists _); simpl in Hch; [|by apply elem_of_nil in Hch].
    apply list_elem_of_singleton in Hch. done.
  - intros (j & s & Hj & Hex & ->).
    exists (S j, s). split.
    + unfold spine_chapter_step. rewrite Hex. simpl. by apply list_elem_of_singleton.
    + apply elem_of_enumerate1. by exists j.
Qed.

(** The files of the chapters do not depend on the numbering. *)
Lemma toc_paths_enumerate_from bd items n :
  html_path <$> (zip (seq n (length items)) items ≫= toc_step bd [])
  = items ≫= (λ item, html_path <$> toc_step bd [] (0, item)).
Proof.
  revert n. induction items as [|[[t fp] fr] items IH]; intros n; [done|].
  cbn [length seq zip zip_with]. rewrite !bind_cons, fmap_app, IH. f_equal.
  unfold toc_step. by repeat case_match.
Qed.

Lemma bind_filter_nil {A B} (P : A → Prop) `{!∀ x, Decision (P x)}
    (g : A → list B) l :
  (∀ x, ¬ P x → g x = []) → filter P l ≫= g = l ≫= g.
Proof.
  intros Hg. induction l as [|x l IH]; [done|].
  rewrite bind_cons. destruct (decide (P x)) as [HP|HP].
  - by rewrite filter_cons_True, bind_cons, IH.
  - by rewrite filter_cons_False, IH, (Hg x HP).
Qed.

(** C9.  An entry of the table of contents whose unquoted target does not
    end in [.xhtml], [.html] or [.htm] gives no chapter, whether or not
    the file exists: no chapter carries its number, every chapter has such
    an ending, and the set of files of the coverage check is the one
    obtained without these entries. *)
Theorem toc_drops_non_html_entries bd items j title fp frag :
  items !! j = Some (title, fp, frag) →
  has_html_ext (unquote fp) = false →
  (∀ ch, ch ∈ toc_chapters bd items → order ch ≠ S j)
  ∧ (∀ ch, ch ∈ toc_chapters bd items → has_html_ext (src ch) = true)
  ∧ toc_files (toc_chapters bd items)
    = toc_files (toc_chapters bd
                   (filter (λ it : TocItem, has_html_ext (unquote it.1.2) = true) items)).
Proof.
  intros Hj Hext. split; [|split].
  - intros ch (j' & t' & fp' & fr' & Hj' & Hext' & _ & ->)%elem_of_toc_chapters.
    simpl. intros [= <-]. rewrite Hj in Hj'. injection Hj' as <- <- <-. congruence.
  - by intros ch (j' & t' & fp' & fr' & _ & Hext' & _ & ->)%elem_of_toc_chapters.
  - unfold toc_files. rewrite !list_fmap_compose. f_equal. f_equal.
    rewrite !toc_chapters_bind. unfold enumerate1.
    rewrite !toc_paths_enumerate_from. symmetry. apply bind_filter_nil.
    intros [[t' fp'] fr'] Hno. simpl in Hno. unfold toc_step.
    destruct (has_html_ext (unquote fp')); [done|]. done.
Qed.

End Selection.


Lemma toc_drops_non_html_entries_witness :
  toc_files (W := ex_three_files)
    (toc_chapters (W := ex_three_files) "OEBPS"
       [("Cover", "a.html", None); ("Notes", "c.html.txt", None)])
  = toc_files (W := ex_three_files)
      (toc_chapters (W := ex_three_files) "OEBPS"
         (filter (λ it : TocItem,
                    has_html_ext (unquote (World := ex_three_files) it.1.2) = true)
            [("Cover", "a.html", None); ("Notes", "c.html.txt", None)])).
Proof.
  exact (proj2 (proj2 (toc_drops_non_html_entries (W := ex_three_files) "OEBPS"
                  [("Cover", "a.html", None); ("Notes", "c.html.txt", None)]
                  1 "Notes" "c.html.txt" None eq_refl eq_refl))).
Defined.

(** ** Fragment ranges and the final order *)

Section Fragments.

Lemma chapter_eta ch :
  mkChapter (order ch) (title ch) (src ch) (fragment ch) (html_path ch)
    (start_id ch) (end_id ch) = ch.
Proof. by destruct ch. Qed.

Lemma run_effect_after e w ch :
  run_effect (effect_after e w) ch = run_effect e (apply_write w ch).
Proof. by destruct e as [[?|] [?|]], w. Qed.

Lemma run_effect_idemp e ch : run_effect e (run_effect e ch) = run_effect e ch.
Proof. by destruct e as [[?|] [?|]]. Qed.

Lemma lookup_apply_plan ws st j :
  apply_plan ws st !! j = run_effect (effect_of ws j) <$> st !! j.
Proof.
  revert st. induction ws as [|[k w] ws IH]; intros st; cbn [apply_plan effect_of].
  - destruct (st !! j) as [ch|]; [|done]. simpl. f_equal.
    unfold run_effect. simpl. by rewrite chapter_eta.
  - rewrite IH, list_lookup_alter. destruct (decide (k = j)) as [->|]; [|done].
    destruct (st !! j); [|done]. simpl. by rewrite run_effect_after.
Qed.

Lemma apply_plan_idemp ws st : apply_plan ws (apply_plan ws st) = apply_plan ws st.
Proof.
  apply list_eq. intros j. rewrite !lookup_apply_plan.
  destruct (st !! j); [|done]. simpl. by rewrite run_effect_idemp.
Qed.

Lemma apply_plan_app ws1 ws2 st :
  apply_plan (ws1 ++ ws2) st = apply_plan ws2 (apply_plan ws1 st).
Proof.
  revert st. induction ws1 as [|[k w] ws1 IH]; intros st; [done|]. apply IH.
Qed.

(** What the assignments leave alone. *)
Lemma fmap_apply_plan {B} (f : Chapter → B) ws st :
  (∀ w ch, f (apply_write w ch) = f ch) →
  f <$> apply_plan ws st = f <$> st.
Proof.
  intros Hf. revert st. induction ws as [|[k w] ws IH]; intros st; [done|].
  cbn [apply_plan]. rewrite IH. rewrite (list_fmap_alter f _ id).
  - apply list_alter_id. done.
  - apply Forall_forall. intros ch _. apply Hf.
Qed.

Lemma fragment_apply_plan ws st : fragment <$> apply_plan ws st = fragment <$> st.
Proof. apply fmap_apply_plan. by intros []. Qed.

Lemma order_apply_plan ws st : order <$> apply_plan ws st = order <$> st.
Proof. apply fmap_apply_plan. by intros []. Qed.

Lemma fragment_at_fr st k : fragment_at st k = fr_at (fragment <$> st) k.
Proof.
  unfold fragment_at, fr_at. rewrite list_lookup_fmap. by destruct (st !! k).
Qed.

Lemma next_fragment_fr st later :
  next_fragment st later = next_fr (fragment <$> st) later.
Proof.
  induction later as [|k later IH]; [done|]. simpl.
  by rewrite IH, fragment_at_fr.
Qed.

Lemma alter_lookup_insert {A} (f : A → A) (l : list A) k x :
  l !! k = Some x → alter f k l = <[k := f x]> l.
Proof.
  intros Hk. apply list_eq. intros j.
  rewrite list_lookup_alter, list_lookup_insert.
  apply lookup_lt_Some in Hk as Hlt.
  destruct (decide (k = j)) as [->|]; [|by rewrite decide_False by (by intros [? _])].
  rewrite decide_True by done. by rewrite Hk.
Qed.

Lemma alter_lookup_None {A} (f : A → A) (l : list A) k :
  l !! k = None → alter f k l = l.
Proof.
  intros Hk. apply list_eq. intros j. rewrite list_lookup_alter.
  destruct (decide (k = j)) as [->|]; [|done]. by rewrite Hk.
Qed.

(** The loop performs the assignments of its plan. *)
Lemma resolve_loop_plan i group st :
  resolve_loop i group st = apply_plan (plan i group (fragment <$> st)) st.
Proof.
  revert i st. induction group as [|k rest IH]; intros i st; [done|].
  cbn [resolve_loop plan]. rewrite apply_plan_app, next_fragment_fr.
  set (e := next_fr (fragment <$> st) rest).
  assert (Hfr : fr_at (fragment <$> st) k = st !! k ≫= fragment)
    by by rewrite <- fragment_at_fr.
  destruct (st !! k) as [ch|] eqn:Hk; simpl in Hfr; rewrite Hfr.
  - destruct (truthy (fragment ch)).
    + cbn [apply_plan]. rewrite (alter_lookup_insert _ _ _ _ Hk). simpl.
      rewrite IH. f_equal. rewrite list_fmap_insert. simpl.
      f_equal. apply list_insert_id. by rewrite list_lookup_fmap, Hk.
    + destruct (bool_decide (i = 0) && truthy e).
      * cbn [apply_plan]. rewrite (alter_lookup_insert _ _ _ _ Hk). simpl.
        rewrite IH. f_equal. rewrite list_fmap_insert. simpl.
        f_equal. apply list_insert_id. by rewrite list_lookup_fmap, Hk.
      * simpl. apply IH.
  - simpl. destruct (bool_decide (i = 0) && truthy e).
    + cbn [apply_plan]. rewrite (alter_lookup_None _ _ _ Hk). apply IH.
    + simpl. apply IH.
Qed.

(** *** The stable sort *)

Lemma insert_by_ext {A} (key key' : A → nat) x l :
  (∀ y, key y = key' y) → insert_by key x l = insert_by key' x l.
Proof.
  intros Hk. induction l as [|y l IH]; [done|]. simpl.
  by rewrite IH, !Hk.
Qed.

Lemma sort_by_ext {A} (key key' : A → nat) l :
  (∀ y, key y = key' y) → sort_by key l = sort_by key' l.
Proof.
  intros Hk. induction l as [|y l IH]; [done|]. simpl.
  by rewrite IH, (insert_by_ext key key').
Qed.

Lemma insert_by_Sorted {A} (key : A → nat) x l :
  Sorted le (key <$> l) → Sorted le (key <$> insert_by key x l).
Proof.
  induction l as [|y l IH]; intros Hs; simpl.
  - repeat constructor.
  - destruct (decide (key x ≤ key y)).
    + constructor; [done|]. by constructor.
    + apply Sorted_inv in Hs as [Hs Hhd]. csimpl. constructor; [by apply IH|].
      destruct l as [|z l]; simpl.
      * constructor. lia.
      * destruct (decide (key x ≤ key z)); constructor; [lia|].
        by apply HdRel_inv in Hhd.
Qed.

Lemma sort_by_Sorted {A} (key : A → nat) l : Sorted le (key <$> sort_by key l).
Proof.
  induction l as [|x l IH]; simpl; [constructor|]. by apply insert_by_Sorted.
Qed.

(** Sorting a list that is sorted changes nothing. *)
Lemma sort_by_id {A} (key : A → nat) l :
  Sorted le (key <$> l) → sort_by key l = l.
Proof.
  induction l as [|x l IH]; intros Hs; [done|].
  apply Sorted_inv in Hs as [Hs Hhd]. simpl. rewrite (IH Hs).
  destruct l as [|y l]; [done|]. simpl.
  apply HdRel_inv in Hhd. by rewrite decide_True.
Qed.

Lemma sort_by_idemp {A} (key : A → nat) l :
  sort_by key (sort_by key l) = sort_by key l.
Proof. apply sort_by_id, sort_by_Sorted. Qed.


(** *** One group *)

Lemma order_at_fmap st k : order_at st k = default 0 ((order <$> st) !! k).
Proof. unfold order_at. rewrite list_lookup_fmap. by destruct (st !! k). Qed.

Lemma existsb_fragment_fr st group :
  existsb (λ k, truthy (fragment_at st k)) group
  = existsb (λ k, truthy (fr_at (fragment <$> st) k)) group.
Proof.
  induction group as [|k group IH]; [done|]. simpl.
  by rewrite IH, fragment_at_fr.
Qed.

Lemma order_resolve_group group st :
  order <$> (resolve_group group st).2 = order <$> st.
Proof.
  unfold resolve_group. destruct (negb _); [done|]. simpl.
  by rewrite resolve_loop_plan, order_apply_plan.
Qed.

Lemma fragment_resolve_group group st :
  fragment <$> (resolve_group group st).2 = fragment <$> st.
Proof.
  unfold resolve_group. destruct (negb _); [done|]. simpl.
  by rewrite resolve_loop_plan, fragment_apply_plan.
Qed.

(** Running the loop of a group twice changes nothing the second time. *)
Lemma resolve_group_twice group st :
  resolve_group (resolve_group group st).1 (resolve_group group st).2
  = resolve_group group st.
Proof.
  assert (Hsort : ∀ st', order <$> st' = order <$> st →
            sort_by (order_at st') (sort_by (order_at st) group)
            = sort_by (order_at st) group).
  { intros st' Ho. rewrite (sort_by_ext (order_at st') (order_at st)).
    - apply sort_by_idemp.
    - intros k. by rewrite !order_at_fmap, Ho. }
  pose proof (order_resolve_group group st) as Ho.
  pose proof (fragment_resolve_group group st) as Hf.
  unfold resolve_group in *.
  destruct (negb (existsb _ (sort_by (order_at st) group))) eqn:Hany;
    cbn [fst snd] in *.
  - rewrite (Hsort st eq_refl). by rewrite Hany.
  - rewrite (Hsort _ Ho). rewrite existsb_fragment_fr, Hf, <- existsb_fragment_fr.
    rewrite Hany. f_equal.
    rewrite (resolve_loop_plan 0 _ (resolve_loop _ _ _)), Hf.
    rewrite (resolve_loop_plan 0 _ st). apply apply_plan_idemp.
Qed.

(** C8.  Fragment range resolution is idempotent on a group: run on the
    group and the chapters a first run leaves, it returns the same group
    and the same chapters, hence the same start and end anchor for every
    chapter. *)
Theorem resolve_group_idempotent group st :
  resolve_group (resolve_group group st).1 (resolve_group group st).2
  = resolve_group group st
  ∧ start_id <$> (resolve_group (resolve_group group st).1
                    (resolve_group group st).2).2
    = start_id <$> (resolve_group group st).2
  ∧ end_id <$> (resolve_group (resolve_group group st).1
                  (resolve_group group st).2).2
    = end_id <$> (resolve_group group st).2.
Proof. by rewrite resolve_group_twice. Qed.


End Fragments.

(** ** The final sequence *)

Section Final.
Context `{W : World}.

(** The numbers of the output files are dense. *)
Lemma convert_jobs_from n jobs chapters :
  foldl convert_step (n, jobs) chapters
  = (n + length chapters,
     jobs ++ zip_with (λ i ch, mkJob i ch (chapter_snippet ch)
                                 (if truthy (chapter_snippet ch) then "-" else src ch))
               (seq (S n) (length chapters)) chapters).
Proof.
  revert n jobs. induction chapters as [|ch chapters IH]; intros n jobs.
  - simpl. by rewrite Nat.add_0_r, app_nil_r.
  - cbn [foldl convert_step]. rewrite IH. cbn [length seq zip_with].
    rewrite Nat.add_1_r. f_equal; [lia|]. by rewrite <- (assoc_L (++)).
Qed.







End Final.



(** ** The container locator *)

Section Locator.
Context `{W : World}.



End Locator.

(** The cases of C7 on concrete archives: a missing, a malformed and a
    dangling container file give [None] after observations only; a good
    one gives the path of the package file. *)
Example find_opf_examples :
  _find_opf (W := archive [] []) "book"
  = ([EParse "book/META-INF/container.xml"], inl None)
  ∧ _find_opf (W := ex_malformed) "book"
    = ([EParse "book/META-INF/container.xml"], inl None)
  ∧ _find_opf (W := ex_dangling) "book"
    = ([EParse "book/META-INF/container.xml"; EExists "book/OEBPS/content.opf"],
       inl None)
  ∧ _find_opf (W := ex_book) "book"
    = ([EParse "book/META-INF/container.xml"; EExists "book/OEBPS/content.opf"],
       inl (Some "book/OEBPS/content.opf")).
Proof. by vm_compute. Qed.

(** ** The spine *)

Section Spine.
Context `{W : World}.






End Spine.

(** The spine of a package with two XHTML items, an SVG item and a
    dangling idref: the SVG item and the dangling reference are left out. *)
Example find_spine_example :
  result (_find_spine (W := ex_book) "book")
  = inl (Some "book/OEBPS", ["ch1.xhtml"; "ch2.xhtml"]).
Proof. by vm_compute. Qed.

(** ** Titles of spine chapters *)

Section Titles.
Context `{W : World}.
Import Str StrFacts.

Lemma startswith_ci_app p r : startswith_ci (p +:+ r) p = true.
Proof.
  induction p as [|c p IH]; [reflexivity|].
  rewrite app_cons. simpl. rewrite Ascii.eqb_refl. exact IH.
Qed.

Lemma index_of_ci_first p t k :
  startswith_ci (drop k t) p = true →
  k ≤ String.length t →
  (∀ j, j < k → startswith_ci (drop j t) p = false) →
  index_of_ci p t = Some k.
Proof.
  revert t; induction k as [|k IH]; intros t Hk Hlen Hno.
  - destruct t; simpl in *; by rewrite Hk.
  - destruct t as [|c t]; [simpl in Hlen; lia|].
    cbn [index_of_ci]. pose proof (Hno 0 ltac:(lia)) as H0. cbn [drop] in H0.
    rewrite H0, (IH t); [done|done|simpl in Hlen; lia|].
    intros j Hj. apply (Hno (S j)). lia.
Qed.

Lemma index_of_char_app c s t :
  has_char c s = false →
  index_of (String c "") (s +:+ String c t) = Some (String.length s).
Proof.
  induction s as [|b s IH]; intros Hc.
  - rewrite app_nil_l. simpl. by rewrite Ascii.eqb_refl.
  - simpl in Hc. destruct (Ascii.eqb c b) eqn:E; [done|].
    rewrite app_cons. cbn [index_of startswith]. rewrite E.
    by rewrite (IH Hc).
Qed.

(** [heading_search] on a text whose first opening tag [<tg ...>] is
    closed: group 1 is the text between the [>] of the opening tag and the
    first closing tag. *)
Lemma heading_search_first tg pre attrs inner post :
  has_char ">" attrs = false →
  (∀ j, j < String.length pre →
        startswith_ci
          (drop j (pre +:+ ("<" +:+ tg) +:+ attrs +:+ ">" +:+ inner
                   +:+ ("</" +:+ tg +:+ ">") +:+ post))
          ("<" +:+ tg) = false) →
  (∀ j, j < String.length inner →
        startswith_ci (drop j (inner +:+ ("</" +:+ tg +:+ ">") +:+ post))
          ("</" +:+ tg +:+ ">") = false) →
  heading_search tg
    (pre +:+ ("<" +:+ tg) +:+ attrs +:+ ">" +:+ inner
     +:+ ("</" +:+ tg +:+ ">") +:+ post)
  = Some inner.
Proof.
  intros Hattrs Hpre Hinner. induction pre as [|c pre IH].
  - rewrite app_nil_l. destruct (("<" +:+ tg) +:+ _) eqn:Et;
      cbn [heading_search]; rewrite <- Et; clear Et.
    all: unfold heading_match_here; rewrite startswith_ci_app, drop_app.
    all: change (">" +:+ inner +:+ ?x) with (String ">" (inner +:+ x)).
    all: rewrite (index_of_char_app _ _ _ Hattrs).
    all: replace (S (String.length attrs))
           with (String.length (attrs +:+ ">")) by (rewrite length_app; simpl; lia).
    all: replace (attrs +:+ String ">" (inner +:+ ("</" +:+ tg +:+ ">") +:+ post))
           with ((attrs +:+ ">") +:+ inner +:+ ("</" +:+ tg +:+ ">") +:+ post)
           by (by rewrite app_assoc).
    all: rewrite drop_app.
    all: rewrite (index_of_ci_first _ _ (String.length inner));
           [by rewrite take_app
           |by rewrite drop_app, startswith_ci_app
           |rewrite length_app; lia
           |done].
  - rewrite app_cons. cbn [heading_search].
    pose proof (Hpre 0 ltac:(simpl; lia)) as H0. rewrite app_cons in H0.
    cbn [drop] in H0. unfold heading_match_here at 1. rewrite H0.
    apply IH. intros j Hj. specialize (Hpre (S j) ltac:(simpl; lia)).
    by rewrite app_cons in Hpre.
Qed.




End Titles.



(** Title inference on concrete texts: tags in upper case and with
    attributes, markup inside the heading, an empty level-1 heading, and a
    file that cannot be read. *)
Example extract_title_examples :
  title_loop ["h1"; "h2"; "h3"] "<body><H1 class='t'> A <i>fine</i> day </H1></body>"
  = Some "A fine day"
  ∧ title_loop ["h1"; "h2"; "h3"] "<h1> </h1><h1>Real</h1><h3>Third</h3>"
    = Some "Third"
  ∧ title_loop ["h1"; "h2"; "h3"] "<h1>unclosed" = None
  ∧ title_loop ["h1"; "h2"; "h3"] "<h1>a<<b>c<>d>e</h1>" = Some "ac<>d>e"
  ∧ title_loop ["h1"; "h2"; "h3"] "<h10>x</h1>" = Some "x"
  ∧ spine_title (W := ex_headings) "OEBPS/missing.html" "text/missing.html"
    = "missing".
Proof. by vm_compute. Qed.

(** Fragment ranges on concrete chapters: three fragments of one file,
    and a chapter without a fragment in front of one with a fragment (the
    preamble); a file named once without a fragment is left alone. *)
Example resolve_ranges_examples :
  (λ ch, (start_id ch, end_id ch))
    <$> resolve_ranges
          [mkChapter 1 "I" "b.html" (Some "ch1") "OEBPS/b.html" None None;
           mkChapter 2 "II" "b.html" (Some "ch2") "OEBPS/b.html" None None;
           mkChapter 3 "Notes" "n.html" None "OEBPS/n.html" None None;
           mkChapter 4 "III" "b.html" (Some "ch3") "OEBPS/b.html" None None]
  = [(Some "ch1", Some "ch2"); (Some "ch2", Some "ch3"); (None, None);
     (Some "ch3", None)]
  ∧ (λ ch, (start_id ch, end_id ch))
      <$> resolve_ranges
            [mkChapter 1 "Preface" "b.html" None "OEBPS/b.html" None None;
             mkChapter 2 "Aside" "b.html" None "OEBPS/b.html" None None;
             mkChapter 3 "I" "b.html" (Some "ch1") "OEBPS/b.html" None None]
    = [(None, Some "ch1"); (None, None); (Some "ch1", None)].
Proof. by vm_compute. Qed.

(** * Further properties of the code *)

(** ** Anchor lookup and segment extraction, case by case *)

Section AnchorsMore.
Import Str StrFacts.

Lemma take_drop n t : take n t +:+ drop n t = t.
Proof.
  revert t; induction n as [|n IH]; intros [|c t]; try done.
  cbn [take drop]. by rewrite app_cons, IH.
Qed.

Lemma index_of_minimal p t i j :
  index_of p t = Some i → j < i → startswith (drop j t) p = false.
Proof.
  revert i j; induction t as [|c t IH]; intros i j; cbn [index_of].
  - destruct (startswith "" p); [|done]. intros [= <-]. lia.
  - destruct (startswith (String c t) p) eqn:E; [intros [= <-]; lia|].
    destruct (index_of p t) as [i'|] eqn:Ei; [|done]. intros [= <-] Hj.
    destruct j as [|j]; [done|]. cbn [drop]. apply (IH i'); [done|lia].
Qed.

Lemma index_of_None p t j :
  index_of p t = None → startswith (drop j t) p = false.
Proof.
  revert j; induction t as [|c t IH]; intros j; cbn [index_of].
  - destruct (startswith "" p) eqn:E; [done|]. by destruct j.
  - destruct (startswith (String c t) p) eqn:E; [done|].
    destruct (index_of p t) eqn:Ei; [done|]. intros _.
    destruct j as [|j]; [done|]. cbn [drop]. by apply IH.
Qed.

Lemma index_of_None_intro p t :
  (∀ j, startswith (drop j t) p = false) → index_of p t = None.
Proof.
  induction t as [|c t IH]; intros Hno; cbn [index_of].
  - pose proof (Hno 0) as H0. cbn [drop] in H0. by rewrite H0.
  - pose proof (Hno 0) as H0. cbn [drop] in H0. rewrite H0, IH; [done|].
    intros j. apply (Hno (S j)).
Qed.

Lemma py_min_le_head z zs : (py_min z zs ≤ z)%Z.
Proof.
  unfold py_min. revert z; induction zs as [|y zs IH]; intros z; simpl; [lia|].
  specialize (IH (z `min` y)%Z). lia.
Qed.

Lemma py_min_le z zs x : x ∈ z :: zs → (py_min z zs ≤ x)%Z.
Proof.
  revert z; induction zs as [|y zs IH]; intros z Hx.
  - apply list_elem_of_singleton in Hx as ->. apply py_min_le_head.
  - change (py_min z (y :: zs)) with (py_min (z `min` y)%Z zs).
    pose proof (py_min_le_head (z `min` y)%Z zs).
    apply elem_of_cons in Hx as [->|Hx]; [lia|].
    apply elem_of_cons in Hx as [->|Hx]; [lia|].
    apply IH, elem_of_cons. by right.
Qed.

Lemma last_index_of_char_None c t :
  last_index_of (String c "") t = None → has_char c t = false.
Proof.
  induction t as [|b t IH]; [done|]. cbn [last_index_of].
  destruct (last_index_of (String c "") t); [done|].
  simpl. destruct (Ascii.eqb c b); [done|]. intros _. by apply IH.
Qed.

Lemma last_index_of_char_Some c t i :
  last_index_of (String c "") t = Some i →
  ∃ u q, t = u +:+ String c q ∧ String.length u = i ∧ has_char c q = false.
Proof.
  revert i; induction t as [|b t IH]; intros i; [done|]. cbn [last_index_of].
  destruct (last_index_of (String c "") t) as [i'|] eqn:E.
  - intros [= <-]. destruct (IH i' eq_refl) as (u & q & -> & <- & Hq).
    by exists (String b u), q.
  - simpl. destruct (Ascii.eqb c b) eqn:Eb; [|done]. intros [= <-].
    apply Ascii.eqb_eq in Eb as <-. exists "", t. split; [done|].
    split; [done|]. by apply last_index_of_char_None.
Qed.

(** What [_find_anchor] returns: there is an offset [pos] where one of
    the four patterns matches and below which none does, and the result
    is the offset of the last [<] before [pos], or [pos] itself when no
    [<] precedes it. *)
Theorem find_anchor_lowest_match text a s :
  _find_anchor text (Some a) = Some s →
  ∃ pos pat,
    pat ∈ anchor_pats a
    ∧ startswith (drop pos text) pat = true
    ∧ no_match_before text a pos = true
    ∧ ((∃ u q, take pos text = u +:+ String "<" q
               ∧ s = Z.of_nat (String.length u)
               ∧ has_char "<" q = false)
       ∨ (has_char "<" (take pos text) = false ∧ s = Z.of_nat pos)).
Proof.
  unfold _find_anchor. destruct a as [|c a]; [done|].
  set (pats := anchor_pats (String c a)).
  destruct (filter _ _) as [|p0 ps] eqn:Hf; [done|].
  pose proof (py_min_elem p0 ps) as Hin. rewrite <- Hf in Hin.
  apply list_elem_of_filter in Hin as [Hne Hin].
  apply list_elem_of_fmap in Hin as (pat & Hpat & Hin).
  unfold find in Hpat. destruct (index_of pat text) as [pos|] eqn:Hpos; [|done].
  intros [= <-]. exists pos, pat. split; [done|].
  split; [by apply index_of_Some in Hpos as [? _]|]. split.
  - apply no_match_before_spec. intros pat' j Hpat' Hj.
    destruct (index_of pat' text) as [i|] eqn:Hi; [|by apply index_of_None].
    apply (index_of_minimal _ _ i); [done|].
    assert (Hmem : Z.of_nat i ∈ p0 :: ps).
    { rewrite <- Hf. apply list_elem_of_filter. split; [lia|].
      apply list_elem_of_fmap. exists pat'. split; [|done].
      unfold find. by rewrite Hi. }
    apply py_min_le in Hmem. lia.
  - rewrite Hpat. unfold rfind0. rewrite Nat2Z.id.
    destruct (last_index_of "<" (take pos text)) as [i|] eqn:Hl.
    + left. apply last_index_of_char_Some in Hl as (u & q & Hu & <- & Hq).
      exists u, q. by rewrite bool_decide_eq_true_2 by lia.
    + right. split; [by apply last_index_of_char_None|].
      by rewrite bool_decide_eq_false_2 by lia.
Qed.

Lemma find_anchor_lowest_match_witness :
  ∃ pos pat,
    pat ∈ anchor_pats "n1"
    ∧ startswith (drop pos "<p>x</p><a name='n1'>y</a>") pat = true
    ∧ no_match_before "<p>x</p><a name='n1'>y</a>" "n1" pos = true
    ∧ ((∃ u q, take pos "<p>x</p><a name='n1'>y</a>" = u +:+ String "<" q
               ∧ 8%Z = Z.of_nat (String.length u)
               ∧ has_char "<" q = false)
       ∨ (has_char "<" (take pos "<p>x</p><a name='n1'>y</a>") = false
          ∧ 8%Z = Z.of_nat pos)).
Proof.
  exact (find_anchor_lowest_match "<p>x</p><a name='n1'>y</a>" "n1" 8%Z eq_refl).
Defined.

(** A non-empty anchor is not found exactly when none of its four
    patterns occurs anywhere in the text. *)
Theorem find_anchor_None_iff text a :
  a ≠ "" →
  _find_anchor text (Some a) = None ↔
  ∀ pat j, pat ∈ anchor_pats a → startswith (drop j text) pat = false.
Proof.
  intros Ha. unfold _find_anchor. destruct a as [|c a]; [done|].
  set (pats := anchor_pats (String c a)). split.
  - destruct (filter _ _) as [|p0 ps] eqn:Hf; [|done]. intros _ pat j Hpat.
    destruct (index_of pat text) as [i|] eqn:Hi; [|by apply index_of_None].
    assert (Hmem : Z.of_nat i ∈ filter (λ i, i ≠ (-1)%Z) (find text <$> pats)).
    { apply list_elem_of_filter. split; [lia|].
      apply list_elem_of_fmap. exists pat. split; [|done].
      unfold find. by rewrite Hi. }
    rewrite Hf in Hmem. by apply elem_of_nil in Hmem.
  - intros Hno. destruct (filter _ _) as [|p0 ps] eqn:Hf; [done|].
    assert (Hmem : p0 ∈ filter (λ i, i ≠ (-1)%Z) (find text <$> pats))
      by (rewrite Hf; apply elem_of_cons; by left).
    apply list_elem_of_filter in Hmem as [Hne Hmem].
    apply list_elem_of_fmap in Hmem as (pat & -> & Hpat).
    unfold find in Hne. rewrite index_of_None_intro in Hne; [done|].
    intros j. by apply Hno.
Qed.

Lemma find_anchor_None_iff_witness :
  _find_anchor "<p id='b'>x</p>" (Some "a") = None ↔
  ∀ pat j, pat ∈ anchor_pats "a" →
           startswith (drop j "<p id='b'>x</p>") pat = false.
Proof. apply (find_anchor_None_iff "<p id='b'>x</p>" "a"). discriminate. Defined.

End AnchorsMore.

Section SegmentsMore.
Import Str StrFacts.

Lemma take_length t : take (String.length t) t = t.
Proof. induction t as [|c t IH]; [done|]. simpl. by rewrite IH. Qed.

Lemma take_ge n t : String.length t ≤ n → take n t = t.
Proof.
  revert t; induction n as [|n IH]; intros [|c t]; simpl; try done; [lia|].
  intros Hn. rewrite IH; [done|lia].
Qed.

Lemma find_anchor_truthy text anchor s :
  _find_anchor text anchor = Some s → truthy anchor = true.
Proof. unfold _find_anchor. by destruct anchor as [[|c a]|]. Qed.

(** A slice with bounds in range is a non-empty piece of the text. *)
Lemma slice_substring text s e :
  (0 ≤ s < e)%Z → (e ≤ len text)%Z →
  slice text s e ≠ ""
  ∧ ∃ pre post, text = pre +:+ slice text s e +:+ post.
Proof.
  intros Hse He. unfold slice, len in *. split.
  - intros Heq. apply (f_equal String.length) in Heq.
    rewrite length_take, length_drop in Heq. simpl in Heq. lia.
  - exists (take (Z.to_nat s) text),
      (drop (Z.to_nat (e - s)) (drop (Z.to_nat s) text)).
    by rewrite take_drop, take_drop.
Qed.

Lemma extract_segment_piece text sid eid seg :
  _extract_segment text sid eid = Some seg →
  seg ≠ "" ∧ ∃ pre post, text = pre +:+ seg +:+ post.
Proof.
  unfold _extract_segment. destruct (negb _ && negb _); [done|].
  destruct (if truthy sid then _find_anchor text sid else Some 0%Z)
    as [s|] eqn:Hs; [|done].
  assert (Hs0 : (0 ≤ s)%Z).
  { destruct (truthy sid); [apply find_anchor_range in Hs; lia|].
    injection Hs as <-. lia. }
  set (e := if truthy eid then _ else _).
  assert (He : (e ≤ len text)%Z).
  { subst e. destruct (truthy eid); [|lia].
    destruct (_find_anchor text eid) as [e'|] eqn:He'; [|lia].
    apply find_anchor_range in He'. destruct (_ && _); lia. }
  case_bool_decide as Hlt; [|done]. intros [= <-].
  by apply slice_substring.
Qed.

(** Every segment [_extract_segment] returns is a non-empty contiguous
    piece of the text; in particular [if snippet] in [main] fails only
    for [None]. *)
Theorem extract_segment_substring text sid eid seg :
  _extract_segment text sid eid = Some seg →
  seg ≠ "" ∧ ∃ pre post, text = pre +:+ seg +:+ post.
Proof. apply extract_segment_piece. Qed.

Lemma extract_segment_substring_witness :
  "<a id='k'>tail" ≠ ""
  ∧ ∃ pre post, "x<a id='k'>tail" = pre +:+ "<a id='k'>tail" +:+ post.
Proof.
  exact (extract_segment_substring "x<a id='k'>tail" (Some "k") None
           "<a id='k'>tail" eq_refl).
Defined.

(** The preamble case: without a start anchor, a resolved end anchor at
    an offset [e > 0] cuts the text at [e]; an end anchor that resolves to
    offset 0 is ignored (0 is false in the test on line 130) and the
    whole text is returned. *)
Theorem extract_segment_preamble text sid eid e :
  truthy sid = false →
  _find_anchor text eid = Some e →
  _extract_segment text sid eid
  = Some (if bool_decide (0 < e)%Z then take (Z.to_nat e) text else text).
Proof.
  intros Hsid He. pose proof (find_anchor_truthy _ _ _ He) as Heid.
  pose proof (find_anchor_range _ _ _ He) as Hr.
  unfold _extract_segment. rewrite Hsid, Heid, He. cbn [negb andb].
  destruct (bool_decide (0 < e)%Z) eqn:Hpos.
  - apply bool_decide_eq_true in Hpos.
    rewrite (bool_decide_eq_true_2 (e ≠ 0%Z)) by lia. cbn [andb].
    rewrite bool_decide_eq_true_2 by done. f_equal.
    unfold slice. by rewrite Z.sub_0_r.
  - apply bool_decide_eq_false in Hpos. rewrite andb_false_r.
    rewrite bool_decide_eq_true_2 by lia. f_equal.
    unfold slice, len. rewrite Z.sub_0_r, Nat2Z.id. apply take_length.
Qed.

Lemma extract_segment_preamble_witness :
  _extract_segment "intro<h2 id='c1'>One</h2>" None (Some "c1") = Some "intro"
  ∧ _extract_segment "<h2 id='c1'>One</h2>" None (Some "c1")
    = Some "<h2 id='c1'>One</h2>".
Proof.
  split.
  - exact (extract_segment_preamble "intro<h2 id='c1'>One</h2>" None (Some "c1")
             5%Z eq_refl eq_refl).
  - exact (extract_segment_preamble "<h2 id='c1'>One</h2>" None (Some "c1")
             0%Z eq_refl eq_refl).
Defined.

(** Missing anchors.  A start anchor that is given and not found abandons
    the extraction, whatever the end anchor; an end anchor that is absent
    or not found lets the segment run from the start offset to the end of
    the text. *)
Theorem extract_segment_missing_anchor text sid eid :
  (truthy sid = true → _find_anchor text sid = None →
   _extract_segment text sid eid = None)
  ∧ (∀ s, _find_anchor text sid = Some s → _find_anchor text eid = None →
          _extract_segment text sid eid = Some (drop (Z.to_nat s) text)).
Proof.
  split.
  - intros Hsid Hs. unfold _extract_segment. by rewrite Hsid, Hs.
  - intros s Hs He. pose proof (find_anchor_truthy _ _ _ Hs) as Hsid.
    pose proof (find_anchor_range _ _ _ Hs) as Hr.
    unfold _extract_segment. rewrite Hsid, Hs, He. cbn [negb andb].
    assert ((if truthy eid then len text else len text) = len text) as ->
      by by destruct (truthy eid).
    rewrite bool_decide_eq_true_2 by lia. f_equal.
    unfold slice. apply take_ge. rewrite length_drop. unfold len in *. lia.
Qed.

End SegmentsMore.

Example extract_segment_missing_anchor_examples :
  _extract_segment "<p id='b'>x</p>" (Some "a") (Some "b") = None
  ∧ _extract_segment "x<p id='a'>y</p>z" (Some "a") (Some "nowhere")
    = Some "<p id='a'>y</p>z"
  ∧ _extract_segment "x<p id='a'>y</p>z" (Some "a") None
    = Some "<p id='a'>y</p>z"
  ∧ _extract_segment "x<p id='a'>y</p>z" None None = None
  ∧ _extract_segment "" None (Some "a") = None.
Proof. by vm_compute. Qed.

(** ** Chapter selection: how it ends and what it returns *)

Section SelectionMore.
Context `{W : World}.


(** Where the selected chapters come from. *)
Lemma select_chapters_origin bd items sd sf b chs :
  select_chapters bd items sd sf = Done (b, chs) →
  chs ≠ []
  ∧ ((∃ d, b = Some d ∧ bd = Some d ∧ chs = toc_chapters d items)
     ∨ (∃ d, b = Some d ∧ sd = Some d ∧ chs = spine_chapters d sf)).
Proof.
  unfold select_chapters, toc_phase, spine_fallback, require_chapters.
  intros Hsel.
  repeat (case_match; simplify_eq/=); split; try done; eauto 10.
Qed.


(** The message [no toc or spine found] is the one of a run that has no
    entry of a table of contents and no spine file; every other
    [sys.exit] of the selection carries [no html chapters found]. *)
Theorem select_chapters_exit_message bd items sd sf m :
  (sd = None → sf = []) →
  select_chapters bd items sd sf = Exit m →
  (m = "Error: no toc or spine found"
   ∧ (bd = None ∨ items = []) ∧ (sd = None ∨ sf = []))
  ∨ (m = "Error: no html chapters found"
     ∧ ((∃ d, bd = Some d ∧ items ≠ [] ∧ toc_chapters d items = [])
        ∨ ((bd = None ∨ items = [])
           ∧ ∃ d, sd = Some d ∧ sf ≠ [] ∧ spine_chapters d sf = []))).
Proof.
  intros Hsd. unfold select_chapters, toc_phase, spine_fallback, require_chapters.
  destruct sd as [d|]; [|rewrite (Hsd eq_refl)]; intros Hsel.
  - destruct bd as [b|]; [destruct items as [|it items']|].
    + destruct sf as [|s sf']; simplify_eq/=; [left; eauto|].
      destruct (spine_chapters d (s :: sf')) eqn:E; simplify_eq/=.
      right. split; [done|]. right. split; [by right|]. by exists d.
    + destruct (toc_chapters b (it :: items')) as [|c cs] eqn:Ec; simplify_eq/=.
      { right. split; [done|]. left. by exists b. }
      destruct sf as [|s sf']; simplify_eq/=.
      destruct (negb _ && _) eqn:Euse; simplify_eq/=.
      apply andb_true_iff in Euse as [Hne _].
      apply negb_true_iff, bool_decide_eq_false in Hne.
      apply spine_resolved_nonempty in Hne as (x & Hx & Hex).
      pose proof (spine_chapters_nonempty _ _ _ Hx Hex) as Hsp.
      destruct (spine_chapters d (s :: sf')); simplify_eq/=.
    + destruct sf as [|s sf']; simplify_eq/=; [left; eauto|].
      destruct (spine_chapters d (s :: sf')) eqn:E; simplify_eq/=.
      right. split; [done|]. right. split; [by left|]. by exists d.
  - destruct bd as [b|]; [destruct items as [|it items']|]; simplify_eq/=.
    + left. eauto.
    + destruct (toc_chapters b (it :: items')) as [|c cs] eqn:Ec; simplify_eq/=.
      right. split; [done|]. left. by exists b.
    + left. eauto.
Qed.

(** What chapter selection hands on: at least one chapter, and a base
    directory under which the source of every chapter names its file,
    which exists; no range is set yet. *)
Theorem select_chapters_files_exist bd items sd sf b chs :
  select_chapters bd items sd sf = Done (b, chs) →
  chs ≠ []
  ∧ ∃ d, b = Some d
         ∧ ∀ ch, ch ∈ chs →
                 html_path ch = joinpath d (src ch)
                 ∧ path_exists (html_path ch) = true
                 ∧ start_id ch = None ∧ end_id ch = None.
Proof.
  intros [Hne [(d & -> & _ & ->)|(d & -> & _ & ->)]]%select_chapters_origin;
    (split; [done|]); exists d; (split; [done|]); intros ch.
  - by intros (j & t & fp & fr & _ & _ & Hex & ->)%elem_of_toc_chapters.
  - by intros (j & s & _ & Hex & ->)%elem_of_spine_chapters.
Qed.

End SelectionMore.

Lemma select_chapters_exit_iff_witness :
  (∃ m, select_chapters (W := ex_toc_missing)
          (Some "OEBPS") [("One", "ch1.html", None)]
          (Some "OEBPS") ["text/ch1.html"] = Exit m)
  ↔ toc_chapters (W := ex_toc_missing) "OEBPS" [("One", "ch1.html", None)] = [].
Proof.
  apply (select_chapters_exit_iff (W := ex_toc_missing)
           (Some "OEBPS") [("One", "ch1.html", None)] (Some "OEBPS") ["text/ch1.html"]).
  discriminate.
Defined.


Lemma select_chapters_exit_message_witness :
  ("Error: no toc or spine found" = "Error: no toc or spine found"
   ∧ (@None Path = None ∨ @nil TocItem = []) ∧ (@None Path = None ∨ @nil string = []))
  ∨ ("Error: no toc or spine found" = "Error: no html chapters found"
     ∧ ((∃ d, None = Some d ∧ @nil TocItem ≠ []
              ∧ toc_chapters (W := archive [] []) d [] = [])
        ∨ ((@None Path = None ∨ @nil TocItem = [])
           ∧ ∃ d, None = Some d ∧ @nil string ≠ []
                  ∧ spine_chapters (W := archive [] []) d [] = []))).
Proof.
  exact (select_chapters_exit_message (W := archive [] []) None [] None []
           "Error: no toc or spine found" (λ _, eq_refl) eq_refl).
Defined.

Lemma select_chapters_files_exist_witness :
  spine_chapters (W := ex_three_files) "OEBPS" ["a.html"; "missing.html"; "c.html"] ≠ []
  ∧ ∃ d, Some "OEBPS" = Some d
         ∧ ∀ ch, ch ∈ spine_chapters (W := ex_three_files) "OEBPS"
                        ["a.html"; "missing.html"; "c.html"] →
                 html_path ch = joinpath (World := ex_three_files) d (src ch)
                 ∧ path_exists (World := ex_three_files) (html_path ch) = true
                 ∧ start_id ch = None ∧ end_id ch = None.
Proof.
  exact (select_chapters_files_exist (W := ex_three_files) None []
           (Some "OEBPS") ["a.html"; "missing.html"; "c.html"] (Some "OEBPS")
           (spine_chapters (W := ex_three_files) "OEBPS"
              ["a.html"; "missing.html"; "c.html"]) eq_refl).
Defined.

(** ** Fragment ranges: what they change and what they leave *)

Section RangesMore.
Context `{W : World}.

Lemma fmap_resolve_group {B} (f : Chapter → B) group st :
  (∀ w ch, f (apply_write w ch) = f ch) →
  f <$> (resolve_group group st).2 = f <$> st.
Proof.
  intros Hf. unfold resolve_group. destruct (negb _); [done|]. simpl.
  by rewrite resolve_loop_plan, fmap_apply_plan.
Qed.

Lemma fmap_resolve_ranges {B} (f : Chapter → B) chapters :
  (∀ w ch, f (apply_write w ch) = f ch) →
  f <$> resolve_ranges chapters = f <$> chapters.
Proof.
  intros Hf. unfold resolve_ranges. generalize (group_by_file chapters).
  intros groups. revert chapters.
  induction groups as [|g groups IH]; intros st; [done|].
  cbn [foldl]. by rewrite IH, fmap_resolve_group.
Qed.

(** Fragment resolution sets start and end anchors and nothing else: the
    chapters keep their number, their positions, and their order, title,
    source, fragment and file. *)
Theorem resolve_ranges_frame chapters :
  length (resolve_ranges chapters) = length chapters
  ∧ (λ ch, (order ch, title ch, src ch, fragment ch, html_path ch))
      <$> resolve_ranges chapters
    = (λ ch, (order ch, title ch, src ch, fragment ch, html_path ch))
        <$> chapters.
Proof.
  assert (Hf : (λ ch, (order ch, title ch, src ch, fragment ch, html_path ch))
                 <$> resolve_ranges chapters
               = (λ ch, (order ch, title ch, src ch, fragment ch, html_path ch))
                   <$> chapters).
  { apply fmap_resolve_ranges. by intros []. }
  split; [|done]. apply (f_equal length) in Hf. by rewrite !length_fmap in Hf.
Qed.

(** A group none of whose chapters has a fragment is left as it is. *)
Lemma resolve_group_no_fragment group st :
  (∀ ch, ch ∈ st → truthy (fragment ch) = false) →
  (resolve_group group st).2 = st.
Proof.
  intros Hno. unfold resolve_group.
  assert (existsb (λ k, truthy (fragment_at st k)) (sort_by (order_at st) group)
          = false) as ->; [|done].
  generalize (sort_by (order_at st) group). intros g.
  induction g as [|k g IH]; [done|]. simpl. rewrite IH, orb_false_r.
  unfold fragment_at. destruct (st !! k) as [ch|] eqn:Hk; [|done]. simpl.
  apply Hno. by eapply list_elem_of_lookup_2.
Qed.

Lemma resolve_ranges_no_fragment chapters :
  (∀ ch, ch ∈ chapters → truthy (fragment ch) = false) →
  resolve_ranges chapters = chapters.
Proof.
  intros Hno. unfold resolve_ranges. generalize (group_by_file chapters).
  intros groups. induction groups as [|g groups IH]; [done|].
  cbn [foldl]. by rewrite resolve_group_no_fragment.
Qed.

Lemma elem_of_convert_jobs chapters j :
  j ∈ convert_jobs chapters →
  job_chapter j ∈ chapters
  ∧ job_snippet j = chapter_snippet (job_chapter j)
  ∧ job_inp j = (if truthy (job_snippet j) then "-" else src (job_chapter j)).
Proof.
  unfold convert_jobs. rewrite convert_jobs_from. cbn [snd app].
  generalize 1. induction chapters as [|ch chapters IH]; intros n;
    cbn [length seq zip_with]; [by intros ?%elem_of_nil|].
  intros [->|Hj]%elem_of_cons.
  - simpl. split; [by left|done].
  - destruct (IH _ Hj) as (? & ? & ?). split; [by right|done].
Qed.

(** Chapters that come from the spine are never split: fragment
    resolution leaves them as they are, and each is handed to pandoc as
    its file, without a snippet. *)
Theorem spine_chapters_whole_files sd sf :
  resolve_ranges (spine_chapters sd sf) = spine_chapters sd sf
  ∧ ∀ j, j ∈ convert_jobs (spine_chapters sd sf) →
         job_snippet j = None ∧ job_inp j = src (job_chapter j).
Proof.
  split.
  - apply resolve_ranges_no_fragment.
    by intros ch (i & s & _ & _ & ->)%elem_of_spine_chapters.
  - intros j (Hch & Hsn & Hinp)%elem_of_convert_jobs.
    apply elem_of_spine_chapters in Hch as (i & s & _ & _ & Hch).
    assert (Hnone : job_snippet j = None).
    { rewrite Hsn, Hch. unfold chapter_snippet. by simpl. }
    split; [done|]. by rewrite Hinp, Hnone.
Qed.

End RangesMore.

(** ** Fragment ranges, chapter by chapter *)

Section RangesByChapter.

(** *** The dictionary [by_file] *)

Lemma glook_append p k v d :
  glook p (by_file_append k v d)
  = glook p d ++ (if decide (p = k) then [v] else []).
Proof.
  unfold glook. induction d as [|[k' vs] d IH]; simpl.
  - repeat (case_decide; simplify_eq/=); done.
  - repeat (case_decide; simplify_eq/=); try done; by rewrite ?app_nil_r.
Qed.

Lemma keys_append k v d :
  (by_file_append k v d).*1
  = d.*1 ++ (if decide (k ∈ d.*1) then [] else [k]).
Proof.
  induction d as [|[k' vs] d IH]; [done|]. cbn [by_file_append].
  destruct (decide (k = k')) as [->|Hk]; rewrite !fmap_cons; cbn [fst].
  - rewrite decide_True by (by left). by rewrite app_nil_r.
  - rewrite IH. destruct (decide (k ∈ d.*1)) as [Hin|Hin].
    + by rewrite decide_True by (by right).
    + rewrite decide_False; [done|]. by intros [?|?]%elem_of_cons.
Qed.

Lemma NoDup_keys_append k v d :
  NoDup d.*1 → NoDup (by_file_append k v d).*1.
Proof.
  intros Hd. rewrite keys_append. destruct (decide (k ∈ d.*1)).
  - by rewrite app_nil_r.
  - apply NoDup_app. split; [done|]. split; [|apply NoDup_singleton].
    intros x Hx ->%list_elem_of_singleton. done.
Qed.

Lemma assoc_NoDup {A} p (g : A) (d : list (Path * A)) :
  NoDup d.*1 → (p, g) ∈ d → assoc p d = Some g.
Proof.
  induction d as [|[k' vs] d IH]; [by intros _ ?%elem_of_nil|].
  simpl. intros [Hk' Hd]%NoDup_cons [[= -> ->]|Hin]%elem_of_cons.
  - by rewrite decide_True.
  - rewrite decide_False; [by apply IH|]. intros ->. apply Hk'.
    apply list_elem_of_fmap. by exists (k', g).
Qed.

Lemma file_indices_S chs p a m :
  file_indices chs p a (S m)
  = (if decide (html_path <$> chs !! a = Some p) then [a] else [])
    ++ file_indices chs p (S a) m.
Proof.
  unfold file_indices. cbn [seq]. rewrite filter_cons.
  by destruct (decide (html_path <$> chs !! a = Some p)).
Qed.

(** The loop that fills [by_file], from the chapters [l] on, which follow
    the chapters [pre]. *)
Lemma group_fold pre l d :
  let d' := foldl (λ d (ic : nat * Chapter), by_file_append (html_path ic.2) ic.1 d)
              d (zip (seq (length pre) (length l)) l) in
  (∀ p, glook p d'
        = glook p d ++ file_indices (pre ++ l) p (length pre) (length l))
  ∧ (NoDup d.*1 → NoDup d'.*1).
Proof.
  revert pre d. induction l as [|c l IH]; intros pre d; cbn zeta.
  - split; [|done]. intros p. by rewrite app_nil_r.
  - cbn [length seq zip zip_with foldl].
    specialize (IH (pre ++ [c]) (by_file_append (html_path c) (length pre) d)).
    cbn zeta in IH. rewrite length_app in IH. cbn [length] in IH.
    rewrite Nat.add_1_r, <- (assoc_L (++)) in IH. cbn [app] in IH.
    destruct IH as [IH1 IH2]. split.
    + intros p. rewrite IH1, glook_append, file_indices_S, <- !(assoc_L (++)).
      f_equal. f_equal. rewrite list_lookup_middle by done. simpl.
      destruct (decide (p = html_path c)) as [->|Hne].
      * by rewrite decide_True.
      * rewrite decide_False; [done|]. congruence.
    + intros Hd. by apply IH2, NoDup_keys_append.
Qed.

Lemma group_by_file_spec chs :
  NoDup (group_by_file chs).*1
  ∧ ∀ p g, (p, g) ∈ group_by_file chs → g = file_indices chs p 0 (length chs).
Proof.
  destruct (group_fold [] chs []) as [Hlook Hnd]. cbn zeta in *.
  simpl in Hlook, Hnd. fold (enumerate0 chs) in Hlook, Hnd.
  fold (group_by_file chs) in Hlook, Hnd.
  specialize (Hnd (NoDup_nil_2)). split; [done|].
  intros p g Hin. rewrite <- Hlook. unfold glook.
  by rewrite (assoc_NoDup _ _ _ Hnd Hin).
Qed.

(** *** Groups are sorted already *)

Lemma elem_of_file_indices chs p a m i :
  i ∈ file_indices chs p a m ↔
  a ≤ i < a + m ∧ html_path <$> chs !! i = Some p.
Proof.
  unfold file_indices. rewrite list_elem_of_filter, elem_of_seq.
  split; intros [? ?]; by split.
Qed.

Lemma file_indices_sorted chs p a m :
  StronglySorted lt (file_indices chs p a m).
Proof.
  revert a. induction m as [|m IH]; intros a; [constructor|].
  rewrite file_indices_S. destruct (decide _); simpl; [|apply IH].
  constructor; [apply IH|]. apply Forall_forall.
  intros i [? _]%elem_of_file_indices. lia.
Qed.

Lemma StronglySorted_lookup_lt (l : list nat) i j x y :
  StronglySorted lt l → l !! i = Some x → l !! j = Some y → i < j → x < y.
Proof.
  intros Hs. revert i j. induction Hs as [|z l Hs IH Hall]; intros i j; [done|].
  destruct i as [|i], j as [|j]; simpl; try lia.
  - intros [= <-] Hj _. rewrite Forall_forall in Hall. apply Hall.
    by eapply list_elem_of_lookup_2.
  - intros Hi Hj Hlt. apply (IH i j); [done|done|lia].
Qed.

Lemma group_orders_sorted chs st p :
  StronglySorted lt (order <$> chs) →
  order <$> st = order <$> chs →
  Sorted le (order_at st <$> file_indices chs p 0 (length chs)).
Proof.
  intros Hs Ho.
  assert (Hmono : ∀ i j, i < j → j < length chs → order_at st i ≤ order_at st j).
  { intros i j Hij Hj. rewrite !order_at_fmap, Ho.
    destruct (lookup_lt_is_Some_2 (order <$> chs) i) as [x Hx];
      [rewrite length_fmap; lia|].
    destruct (lookup_lt_is_Some_2 (order <$> chs) j) as [y Hy];
      [rewrite length_fmap; lia|].
    rewrite Hx, Hy. simpl.
    pose proof (StronglySorted_lookup_lt _ _ _ _ _ Hs Hx Hy Hij). lia. }
  pose proof (file_indices_sorted chs p 0 (length chs)) as Hg.
  assert (Hin : ∀ i, i ∈ file_indices chs p 0 (length chs) → i < length chs).
  { intros i [? _]%elem_of_file_indices. lia. }
  induction Hg as [|i g Hg IH Hall]; [constructor|].
  rewrite fmap_cons. constructor.
  - apply IH. intros j Hj. apply Hin. by right.
  - destruct g as [|j g]; constructor. apply Hmono.
    + by apply Forall_cons in Hall as [? _].
    + apply Hin. right. by left.
Qed.

(** *** The assignments of all groups *)

Lemma next_fr_None frs later :
  existsb (λ k, truthy (fr_at frs k)) later = false → next_fr frs later = None.
Proof.
  induction later as [|k later IH]; [done|]. simpl.
  intros [Hk Hl]%orb_false_iff. rewrite Hk. by apply IH.
Qed.

Lemma plan_nil i group frs :
  existsb (λ k, truthy (fr_at frs k)) group = false → plan i group frs = [].
Proof.
  revert i. induction group as [|k group IH]; intros i; [done|]. simpl.
  intros [Hk Hl]%orb_false_iff. rewrite Hk, (next_fr_None _ _ Hl), (IH _ Hl).
  by rewrite andb_false_r.
Qed.

Lemma resolve_group_plan group st :
  Sorted le (order_at st <$> group) →
  (resolve_group group st).2 = apply_plan (plan 0 group (fragment <$> st)) st.
Proof.
  intros Hs. unfold resolve_group. rewrite (sort_by_id _ _ Hs).
  rewrite existsb_fragment_fr.
  destruct (existsb _ group) eqn:Hany; simpl.
  - apply resolve_loop_plan.
  - by rewrite plan_nil.
Qed.

Lemma resolve_groups_plan chs (groups : list (Path * list nat)) st :
  order <$> st = order <$> chs →
  fragment <$> st = fragment <$> chs →
  (∀ st' pg, pg ∈ groups → order <$> st' = order <$> chs →
             Sorted le (order_at st' <$> pg.2)) →
  foldl (λ st g, (resolve_group g.2 st).2) st groups
  = apply_plan (groups ≫= λ pg, plan 0 pg.2 (fragment <$> chs)) st.
Proof.
  revert st. induction groups as [|pg groups IH]; intros st Ho Hf Hsorted; [done|].
  cbn [foldl]. rewrite bind_cons, apply_plan_app.
  rewrite resolve_group_plan by (apply Hsorted; [by left|done]).
  rewrite Hf. apply IH.
  - by rewrite order_apply_plan.
  - by rewrite fragment_apply_plan.
  - intros st' pg' Hin. apply Hsorted. by right.
Qed.

Lemma resolve_ranges_plan chs :
  StronglySorted lt (order <$> chs) →
  resolve_ranges chs
  = apply_plan (group_by_file chs ≫= λ pg, plan 0 pg.2 (fragment <$> chs)) chs.
Proof.
  intros Hs. unfold resolve_ranges. apply resolve_groups_plan; [done|done|].
  intros st' [p g] Hin Ho. simpl.
  destruct (group_by_file_spec chs) as [_ Hg]. rewrite (Hg p g Hin).
  by apply group_orders_sorted.
Qed.

(** *** The effect on one chapter *)

Lemma effect_of_untouched ws j :
  (∀ w, (j, w) ∉ ws) → effect_of ws j = (None, None).
Proof.
  induction ws as [|[k w] ws IH]; intros Hno; [done|]. simpl.
  rewrite decide_False.
  - apply IH. intros w' Hin. apply (Hno w'). by right.
  - intros ->. apply (Hno w). by left.
Qed.

Lemma effect_of_app_l ws1 ws2 j :
  (∀ w, (j, w) ∉ ws1) → effect_of (ws1 ++ ws2) j = effect_of ws2 j.
Proof.
  induction ws1 as [|[k w] ws1 IH]; intros Hno; [done|]. simpl.
  rewrite decide_False.
  - apply IH. intros w' Hin. apply (Hno w'). by right.
  - intros ->. apply (Hno w). by left.
Qed.

Lemma effect_of_app_r ws1 ws2 j :
  (∀ w, (j, w) ∉ ws2) → effect_of (ws1 ++ ws2) j = effect_of ws1 j.
Proof.
  intros Hno. induction ws1 as [|[k w] ws1 IH]; simpl.
  - by apply effect_of_untouched.
  - by rewrite IH.
Qed.

Lemma plan_targets i group frs j w : (j, w) ∈ plan i group frs → j ∈ group.
Proof.
  revert i. induction group as [|k group IH]; intros i;
    [by intros ?%elem_of_nil|]. simpl.
  intros [Hin|Hin]%elem_of_app; [|right; by eapply IH].
  repeat case_match; try by apply elem_of_nil in Hin.
  all: apply list_elem_of_singleton in Hin as [= -> _]; by left.
Qed.

Lemma effect_of_plan_at i g1 k g2 frs :
  k ∉ g1 → k ∉ g2 →
  effect_of (plan i (g1 ++ k :: g2) frs) k
  = if truthy (fr_at frs k) then (Some (fr_at frs k), Some (next_fr frs g2))
    else if bool_decide (i + length g1 = 0) && truthy (next_fr frs g2)
         then (None, Some (next_fr frs g2))
         else (None, None).
Proof.
  intros Hg1 Hg2. revert i. induction g1 as [|a g1 IH]; intros i.
  - cbn [app plan]. rewrite effect_of_app_r
      by (intros w Hin%plan_targets; done).
    rewrite Nat.add_0_r. destruct (truthy (fr_at frs k)); simpl.
    { by rewrite decide_True. }
    destruct (bool_decide (i = 0) && truthy (next_fr frs g2)); simpl; [|done].
    by rewrite decide_True.
  - apply not_elem_of_cons in Hg1 as [Hne Hg1].
    cbn [app plan length]. rewrite effect_of_app_l.
    + rewrite (IH Hg1 (S i)).
      replace (S i + length g1) with (i + S (length g1)) by lia. done.
    + intros w Hin. repeat case_match; try by apply elem_of_nil in Hin.
      all: apply list_elem_of_singleton in Hin as [= -> _]; done.
Qed.

(** *** From positions to chapters *)

Lemma fr_at_lookup chs k ch :
  chs !! k = Some ch → fr_at (fragment <$> chs) k = fragment ch.
Proof. intros Hk. unfold fr_at. by rewrite list_lookup_fmap, Hk. Qed.

Lemma next_fr_indices chs p m a :
  a + m ≤ length chs →
  next_fr (fragment <$> chs) (file_indices chs p a m)
  = head (omap (λ c, if bool_decide (html_path c = p) && truthy (fragment c)
                     then fragment c else None)
            (take m (drop a chs))).
Proof.
  revert a. induction m as [|m IH]; intros a Ha; [done|].
  destruct (lookup_lt_is_Some_2 chs a) as [c Hc]; [lia|].
  rewrite file_indices_S, (drop_S _ _ _ Hc), Hc.
  cbn [take fmap option_fmap option_map omap list_omap].
  destruct (decide (Some (html_path c) = Some p)) as [[= Hp]|Hp].
  - rewrite (bool_decide_eq_true_2 _ Hp). cbn [app next_fr andb].
    rewrite (fr_at_lookup _ _ _ Hc).
    destruct (fragment c) as [[|x s]|] eqn:Hfr; simpl; try done;
      apply IH; lia.
  - rewrite bool_decide_eq_false_2 by congruence. simpl. apply IH. lia.
Qed.

Lemma first_indices chs p m a :
  a + m ≤ length chs →
  file_indices chs p a m = [] ↔
  forallb (λ c, negb (bool_decide (html_path c = p))) (take m (drop a chs)) = true.
Proof.
  revert a. induction m as [|m IH]; intros a Ha; [done|].
  destruct (lookup_lt_is_Some_2 chs a) as [c Hc]; [lia|].
  rewrite file_indices_S, (drop_S _ _ _ Hc), Hc. cbn [take forallb fmap option_fmap option_map].
  destruct (decide (Some (html_path c) = Some p)) as [[= Hp]|Hp].
  - rewrite (bool_decide_eq_true_2 _ Hp). simpl. split; done.
  - rewrite bool_decide_eq_false_2 by congruence. simpl. apply IH. lia.
Qed.

Lemma file_indices_split chs p k n :
  k < n → html_path <$> chs !! k = Some p →
  file_indices chs p 0 n
  = file_indices chs p 0 k ++ k :: file_indices chs p (S k) (n - S k).
Proof.
  intros Hk Hp. unfold file_indices.
  replace n with (k + S (n - S k)) at 1 by lia.
  rewrite seq_app, filter_app. cbn [seq Nat.add].
  by rewrite filter_cons_True.
Qed.

Lemma later_fragments_truthy chs k p s :
  head (later_fragments chs k p) = Some s → truthy (Some s) = true.
Proof.
  intros Hh%head_Some_elem_of. unfold later_fragments in Hh.
  apply list_elem_of_omap in Hh as (c & _ & Hc).
  destruct (bool_decide _ && truthy (fragment c)) eqn:E; [|done].
  apply andb_true_iff in E as [_ E]. by rewrite Hc in E.
Qed.

Lemma assoc_Some_elem_of {A} p (g : A) (d : list (Path * A)) :
  assoc p d = Some g → (p, g) ∈ d.
Proof.
  induction d as [|[k' vs] d IH]; [done|]. simpl.
  destruct (decide (p = k')) as [->|]; [intros [= ->]; by left|].
  intros ?. right. by apply IH.
Qed.

(** The assignments that reach the chapter at position [k] are those of
    the group of its file. *)
Lemma effect_of_groups chs k ch :
  chs !! k = Some ch →
  effect_of (group_by_file chs ≫= λ pg, plan 0 pg.2 (fragment <$> chs)) k
  = effect_of (plan 0 (file_indices chs (html_path ch) 0 (length chs))
                 (fragment <$> chs)) k.
Proof.
  intros Hk. set (p := html_path ch). set (n := length chs).
  destruct (group_by_file_spec chs) as [Hnd Hg].
  destruct (group_fold [] chs []) as [Hlook _]. cbn zeta in Hlook.
  simpl in Hlook. fold (enumerate0 chs) in Hlook. fold (group_by_file chs) in Hlook.
  assert (Hkin : k ∈ file_indices chs p 0 n).
  { apply elem_of_file_indices. apply lookup_lt_Some in Hk as Hlt.
    split; [lia|]. by rewrite Hk. }
  assert (Hpg : (p, file_indices chs p 0 n) ∈ group_by_file chs).
  { specialize (Hlook p). unfold glook in Hlook. fold n in Hlook.
    destruct (assoc p (group_by_file chs)) as [g|] eqn:Ha; simpl in Hlook.
    - rewrite <- Hlook. by apply assoc_Some_elem_of.
    - rewrite <- Hlook in Hkin. by apply elem_of_nil in Hkin. }
  apply list_elem_of_split in Hpg as (G1 & G2 & HG). rewrite HG in Hnd, Hg |- *.
  rewrite fmap_app, fmap_cons in Hnd. cbn [fst] in Hnd.
  apply NoDup_app in Hnd as (_ & Hp1 & Hnd).
  apply NoDup_cons in Hnd as [Hp2 _].
  assert (Hother : ∀ p' g' w, (p', g') ∈ G1 ++ (p, file_indices chs p 0 n) :: G2 →
             p' ≠ p → (k, w) ∉ plan 0 g' (fragment <$> chs)).
  { intros p' g' w Hin Hne Hw%plan_targets. rewrite (Hg p' g' Hin) in Hw.
    apply elem_of_file_indices in Hw as [_ Hw]. rewrite Hk in Hw.
    injection Hw as Hw. by apply Hne. }
  rewrite bind_app, bind_cons. cbn [snd].
  rewrite effect_of_app_l, effect_of_app_r; [done| |].
  - intros w ([p' g'] & Hw & Hin)%list_elem_of_bind. simpl in Hw.
    apply (Hother p' g' w); [apply elem_of_app; right; by right| |done].
    intros ->. apply Hp2. apply list_elem_of_fmap. by exists (p, g').
  - intros w ([p' g'] & Hw & Hin)%list_elem_of_bind. simpl in Hw.
    apply (Hother p' g' w); [apply elem_of_app; by left| |done].
    intros ->. apply (Hp1 p); [|by left].
    apply list_elem_of_fmap. by exists (p, g').
Qed.

(** Fragment ranges on chapters in increasing order, as selection leaves
    them.  A chapter with a fragment starts at its fragment and ends at
    the next fragment of a later chapter of the same file, if any.  A
    chapter without a fragment gets an end, that same next fragment, only
    if it is the first chapter of its file; otherwise it is left as it
    is. *)
Theorem resolve_ranges_by_chapter chs :
  StronglySorted lt (order <$> chs) →
  resolve_ranges chs = imap (range_of chs) chs.
Proof.
  intros Hs. rewrite (resolve_ranges_plan _ Hs). apply list_eq. intros k.
  rewrite lookup_apply_plan, list_lookup_imap.
  destruct (chs !! k) as [ch|] eqn:Hk; [|done]. simpl. f_equal.
  rewrite (effect_of_groups _ _ _ Hk).
  apply lookup_lt_Some in Hk as Hlt.
  rewrite (file_indices_split chs (html_path ch) k (length chs))
    by (done || by rewrite Hk).
  rewrite effect_of_plan_at; cycle 1.
  { intros [? _]%elem_of_file_indices. lia. }
  { intros [? _]%elem_of_file_indices. lia. }
  rewrite (fr_at_lookup _ _ _ Hk), next_fr_indices by lia.
  rewrite list.take_ge by (rewrite list.length_drop; lia).
  fold (later_fragments chs k (html_path ch)).
  unfold range_of. destruct (truthy (fragment ch)); [done|].
  assert (bool_decide (0 + length (file_indices chs (html_path ch) 0 k) = 0)
          = first_of_file chs k (html_path ch)) as ->.
  { unfold first_of_file. pose proof (first_indices chs (html_path ch) k 0) as Hf.
    rewrite drop_0 in Hf. specialize (Hf ltac:(lia)).
    destruct (file_indices chs (html_path ch) 0 k) eqn:E; simpl.
    - symmetry. by apply Hf.
    - apply eq_sym, not_true_is_false. intros Ht. by apply Hf in Ht. }
  destruct (head (later_fragments chs k (html_path ch))) as [s|] eqn:Hh.
  - rewrite (later_fragments_truthy _ _ _ _ Hh).
    rewrite (bool_decide_eq_true_2 (is_Some (Some s))) by eauto.
    destruct (first_of_file chs k (html_path ch)); simpl; [done|].
    unfold run_effect. simpl. apply chapter_eta.
  - rewrite !andb_false_r. unfold run_effect. simpl. apply chapter_eta.
Qed.

End RangesByChapter.

Lemma resolve_ranges_by_chapter_witness :
  resolve_ranges
    [mkChapter 1 "Preface" "b.html" None "OEBPS/b.html" None None;
     mkChapter 3 "I" "b.html" (Some "ch1") "OEBPS/b.html" None None;
     mkChapter 4 "Notes" "n.html" None "OEBPS/n.html" None None;
     mkChapter 6 "II" "b.html" (Some "ch2") "OEBPS/b.html" None None]
  = [mkChapter 1 "Preface" "b.html" None "OEBPS/b.html" None (Some "ch1");
     mkChapter 3 "I" "b.html" (Some "ch1") "OEBPS/b.html" (Some "ch1") (Some "ch2");
     mkChapter 4 "Notes" "n.html" None "OEBPS/n.html" None None;
     mkChapter 6 "II" "b.html" (Some "ch2") "OEBPS/b.html" (Some "ch2") None].
Proof.
  refine (eq_trans (resolve_ranges_by_chapter _ _) _).
  - repeat (constructor; [|repeat constructor; lia]). constructor.
  - by vm_compute.
Defined.

(** ** The package descriptor and the spine: dictionaries and failures *)

Section PackageMore.
Context `{W : World}.

Lemma manifest_fold (items : list Element) (m : gmap string Element) (id : string) :
  foldl (λ m item, match attrib item !! "id" with
                   | Some id => <[id := item]> m
                   | None => m
                   end) m items !! id
  = match last (filter (λ it, attrib it !! "id" = Some id) items) with
    | Some it => Some it
    | None => m !! id
    end.
Proof.
  revert m. induction items as [|it items IH]; intros m; [done|].
  cbn [foldl]. rewrite IH, filter_cons.
  destruct (decide (attrib it !! "id" = Some id)) as [Hid|Hid].
  - rewrite last_cons. destruct (last (filter _ items)); [done|].
    rewrite Hid. apply lookup_insert_eq.
  - destruct (last (filter _ items)); [done|].
    destruct (attrib it !! "id") as [id'|]; [|done].
    apply lookup_insert_ne. congruence.
Qed.

(** The manifest dictionary maps an identifier to the last item that
    declares it; items without an identifier are not in it. *)
Theorem manifest_of_lookup items id :
  manifest_of items !! id
  = last (filter (λ it, attrib it !! "id" = Some id) items).
Proof.
  unfold manifest_of. rewrite manifest_fold.
  by destruct (last (filter _ items)).
Qed.

Lemma result_bind {A B} (m : IO A) (k : A → IO B) :
  result (io_bind m k)
  = match result m with inl a => result (k a) | inr e => inr e end.
Proof. destruct m as [tr [a|e]]; [|done]. simpl. by destruct (k a). Qed.

Lemma trace_bind {A B} (m : IO A) (k : A → IO B) :
  trace (io_bind m k)
  = trace m ++ match result m with inl a => trace (k a) | inr _ => [] end.
Proof.
  destruct m as [tr [a|e]]; simpl; [by destruct (k a)|by rewrite app_nil_r].
Qed.

Lemma parse_xml_cases path :
  trace (_parse_xml path) = [EParse path]
  ∧ result (_parse_xml path)
    = match et_parse path with
      | inl t => inl (Some t)
      | inr ParseError | inr FileNotFoundError => inl None
      | inr e => inr e
      end.
Proof.
  unfold _parse_xml, io_catch, io_parse, io_bind, io_ret, trace, result.
  destruct (et_parse path) as [t|[]]; done.
Qed.

Lemma find_opf_observes root :
  Forall (λ e, is_observation e = true) (trace (_find_opf root))
  ∧ result (_find_opf root) ≠ inr ParseError
  ∧ result (_find_opf root) ≠ inr FileNotFoundError.
Proof.
  unfold _find_opf. rewrite trace_bind, result_bind.
  destruct (parse_xml_cases (joinpath (joinpath root "META-INF") "container.xml"))
    as [-> ->].
  destruct (et_parse _) as [t|[]]; simpl; try (by repeat constructor).
  destruct (find_descendant _ t) as [rf|]; simpl; try (by repeat constructor).
  destruct (attrib rf !! "full-path") as [[|c fp]|]; simpl;
    by repeat constructor.
Qed.

Lemma parse_opf_observes root :
  Forall (λ e, is_observation e = true) (trace (_parse_opf root))
  ∧ result (_parse_opf root) ≠ inr ParseError
  ∧ result (_parse_opf root) ≠ inr FileNotFoundError.
Proof.
  destruct (find_opf_observes root) as (Htr & Hp & Hf).
  unfold _parse_opf. rewrite trace_bind, result_bind.
  destruct (result (_find_opf root)) as [[o|]|e] eqn:Hr; simpl.
  - rewrite trace_bind, result_bind.
    destruct (parse_xml_cases o) as [-> ->].
    split; [|by destruct (et_parse o) as [t|[]]].
    apply Forall_app. split; [done|].
    destruct (et_parse o) as [t|[]]; by repeat constructor.
  - rewrite app_nil_r. by repeat split.
  - rewrite app_nil_r. repeat split; congruence.
Qed.

(** [_find_spine] degrades to [(None, [])]: when the package file is not
    located, when it is not well-formed or has vanished, and when it has
    no spine element.  It only observes the file system, and neither a
    [ParseError] nor a [FileNotFoundError] escapes it. *)
Theorem find_spine_soft_failures root :
  (result (_find_opf root) = inl None →
   result (_find_spine root) = inl (None, []))
  ∧ (∀ opf, result (_find_opf root) = inl (Some opf) →
            et_parse opf = inr ParseError ∨ et_parse opf = inr FileNotFoundError →
            result (_find_spine root) = inl (None, []))
  ∧ (∀ opf pkg, result (_find_opf root) = inl (Some opf) →
                et_parse opf = inl pkg →
                find_child (opf_ns "spine") pkg = None →
                result (_find_spine root) = inl (None, []))
  ∧ Forall (λ e, is_observation e = true) (trace (_find_spine root))
  ∧ result (_find_spine root) ≠ inr ParseError
  ∧ result (_find_spine root) ≠ inr FileNotFoundError.
Proof.
  destruct (parse_opf_observes root) as (Htr & Hp & Hf).
  assert (Hsp : result (_find_spine root)
                = match result (_parse_opf root) with
                  | inl (Some o, m, Some sp) => inl (Some (parent o), spine_items m sp)
                  | inl _ => inl (None, [])
                  | inr e => inr e
                  end).
  { unfold _find_spine. rewrite result_bind.
    destruct (result (_parse_opf root)) as [[[[o|] m] [sp|]]|e]; done. }
  assert (Hpo : result (_parse_opf root)
                = match result (_find_opf root) with
                  | inl (Some o) =>
                      match et_parse o with
                      | inl pkg =>
                          inl (Some o,
                               manifest_of (from_option children []
                                              (find_child (opf_ns "manifest") pkg)),
                               find_child (opf_ns "spine") pkg)
                      | inr ParseError | inr FileNotFoundError => inl (Some o, ∅, None)
                      | inr e => inr e
                      end
                  | inl None => inl (None, ∅, None)
                  | inr e => inr e
                  end).
  { unfold _parse_opf. rewrite result_bind.
    destruct (result (_find_opf root)) as [[o|]|e]; [|done|done].
    rewrite result_bind. destruct (parse_xml_cases o) as [_ ->].
    destruct (et_parse o) as [t|[]]; done. }
  repeat split.
  - intros Ho. by rewrite Hsp, Hpo, Ho.
  - intros opf Ho [He|He]; by rewrite Hsp, Hpo, Ho, He.
  - intros opf pkg Ho He Hc. by rewrite Hsp, Hpo, Ho, He, Hc.
  - unfold _find_spine. rewrite trace_bind. apply Forall_app. split; [done|].
    destruct (result (_parse_opf root)) as [[[[o|] m] [sp|]]|e];
      by repeat constructor.
  - rewrite Hsp. destruct (result (_parse_opf root)) as [[[[o|] m] [sp|]]|e];
      congruence.
  - rewrite Hsp. destruct (result (_parse_opf root)) as [[[[o|] m] [sp|]]|e];
      congruence.
Qed.

End PackageMore.

Section LocalNames.
Import Str StrFacts.

(** [_ln] gives the local name of a tag in Clark notation and leaves a
    tag without a namespace as it is. *)
Theorem ln_local_name tag :
  (has_char "}" tag = false → _ln tag = tag)
  ∧ (∀ ns local, has_char "}" ns = false →
                 tag = ns +:+ "}" +:+ local → _ln tag = local).
Proof.
  split.
  - intros Hno. destruct tag as [|c r]; [done|]. cbn [has_char _ln] in *.
    destruct (Ascii.eqb "}" c) eqn:E; [done|].
    rewrite Ascii.eqb_sym, E. by rewrite Hno.
  - intros ns local Hns ->. induction ns as [|c ns IH].
    + rewrite app_nil_l. change ("}" +:+ local) with (String "}" local).
      cbn [_ln]. by rewrite Ascii.eqb_refl.
    + cbn [has_char] in Hns. destruct (Ascii.eqb "}" c) eqn:E; [done|].
      rewrite app_cons. cbn [_ln]. rewrite Ascii.eqb_sym, E.
      assert (has_char "}" (ns +:+ "}" +:+ local) = true) as ->; [|by apply IH].
      clear IH. induction ns as [|d ns IH].
      * rewrite app_nil_l. change ("}" +:+ local) with (String "}" local).
        cbn [has_char]. by rewrite Ascii.eqb_refl.
      * rewrite app_cons. cbn [has_char] in *.
        destruct (Ascii.eqb "}" d); [done|]. by apply IH.
Qed.

End LocalNames.

Example package_examples :
  _ln "{http://www.idpf.org/2007/opf}itemref" = "itemref"
  ∧ _ln "itemref" = "itemref"
  ∧ result (_find_spine (W := archive [] []) "book") = inl (None, [])
  ∧ result (_find_spine (W := ex_malformed) "book") = inl (None, [])
  ∧ result (_find_spine (W := ex_dangling) "book") = inl (None, [])
  ∧ result (_find_spine
              (W := archive [] [("book/META-INF/container.xml",
                                  inr OtherOSError)]) "book")
    = inr OtherOSError.
Proof. by vm_compute. Qed.

Lemma heading_search_first_witness :
  heading_search "h2" "<p><h2 class='t'>T</h2><h2>U</h2>" = Some "T".
Proof.
  refine (heading_search_first "h2" "<p>" " class='t'" "T" "<h2>U</h2>" eq_refl _ _).
  - intros j Hj. do 3 (destruct j as [|j]; [reflexivity|]). simpl in Hj. lia.
  - intros j Hj. destruct j as [|j]; [reflexivity|]. simpl in Hj. lia.
Defined.

(** ** Names of output files *)

Example safe_name_examples :
  safe_name "Hello, World!" = "hello-world"
  ∧ safe_name "  " = "untitled"
  ∧ safe_name "--x--" = "x"
  ∧ safe_name "Chapter 1: The Beginning" = "chapter-1-the-beginning"
  ∧ safe_name "aaaaaaaaaaaaaaaaaaaaaaaaaaaaaaaaaaaaaaaaaaaaaaaaaaaaaaaaaaa b c"
    = "aaaaaaaaaaaaaaaaaaaaaaaaaaaaaaaaaaaaaaaaaaaaaaaaaaaaaaaaaaa".
Proof. by vm_compute. Qed.

Section SafeNames.
Import Str StrFacts.

Lemma has_char_cons c b s :
  has_char c (String b s) = true ↔ c = b ∨ has_char c s = true.
Proof.
  cbn [has_char]. destruct (Ascii.eqb_spec c b) as [->|Hne]; [by split; auto|].
  split; [by right|]. by intros [?|?].
Qed.

Lemma has_char_sub_runs b s c :
  has_char c (sub_runs b s) = true → is_az09 c = true ∨ c = "-"%char.
Proof.
  revert b. induction s as [|d s IH]; intros b; [done|]. cbn [sub_runs].
  destruct (is_az09 d) eqn:Hd.
  - intros [->|Hc]%has_char_cons; [by left|by eapply IH].
  - destruct b; [by apply IH|].
    intros [->|Hc]%has_char_cons; [by right|by eapply IH].
Qed.

Lemma has_char_lstrip c d s :
  has_char c (lstrip_char d s) = true → has_char c s = true.
Proof.
  induction s as [|b s IH]; [done|]. cbn [lstrip_char].
  destruct (Ascii.eqb b d); [|done]. intros Hc. apply has_char_cons. right. by apply IH.
Qed.

Lemma has_char_rstrip c d s :
  has_char c (rstrip_char d s) = true → has_char c s = true.
Proof.
  induction s as [|b s IH]; [done|]. cbn [rstrip_char].
  destruct (rstrip_char d s) as [|x r].
  - destruct (Ascii.eqb b d); [done|].
    intros [->|Hc]%has_char_cons; [|done]. apply has_char_cons. by left.
  - intros [->|Hc]%has_char_cons; apply has_char_cons; [by left|right; by apply IH].
Qed.

Lemma has_char_take c n s :
  has_char c (take n s) = true → has_char c s = true.
Proof.
  revert s. induction n as [|n IH]; intros [|b s]; try done. cbn [take].
  intros [->|Hc]%has_char_cons; apply has_char_cons; [by left|right; by apply IH].
Qed.

Lemma lstrip_not_start c s r : lstrip_char c s ≠ String c r.
Proof.
  induction s as [|b s IH]; [done|]. cbn [lstrip_char].
  destruct (Ascii.eqb_spec b c) as [->|Hne]; [done|]. by intros [= -> _].
Qed.

Lemma rstrip_start c s b r :
  rstrip_char c s = String b r → ∃ r', s = String b r'.
Proof.
  destruct s as [|x s]; [done|]. cbn [rstrip_char].
  destruct (rstrip_char c s); [destruct (Ascii.eqb x c); [done|]|];
    intros [= -> _]; by eexists.
Qed.

Lemma take_start n s b r : take n s = String b r → ∃ r', s = String b r'.
Proof. destruct n, s; try done. cbn [take]. intros [= -> _]. by eexists. Qed.

Lemma rstrip_not_end c s r : rstrip_char c s ≠ r +:+ String c "".
Proof.
  revert r. induction s as [|b s IH]; intros r; cbn [rstrip_char].
  - by destruct r.
  - destruct (rstrip_char c s) as [|x t] eqn:E.
    + destruct (Ascii.eqb_spec b c) as [->|Hne]; [by destruct r|].
      destruct r as [|y [|z r]]; [by intros [= ->]|done|done].
    + destruct r as [|y r]; [done|]. rewrite app_cons. intros [= -> Ht].
      by apply (IH r).
Qed.

Lemma length_rstrip c s : String.length (rstrip_char c s) ≤ String.length s.
Proof.
  induction s as [|b s IH]; [done|]. cbn [rstrip_char].
  destruct (rstrip_char c s); [destruct (Ascii.eqb b c)|]; simpl in *; lia.
Qed.

(** The part of an output file name made from the title is never empty,
    has at most 60 characters, all of them lower-case ASCII letters,
    digits or dashes, and neither begins nor ends with a dash. *)
Theorem safe_name_is_safe title :
  safe_name title ≠ ""
  ∧ String.length (safe_name title) ≤ 60
  ∧ (∀ c, has_char c (safe_name title) = true → is_az09 c = true ∨ c = "-"%char)
  ∧ (∀ r, safe_name title ≠ String "-" r)
  ∧ (∀ r, safe_name title ≠ r +:+ "-").
Proof.
  unfold safe_name.
  set (s1 := sub_runs false (str_lower title)).
  set (s2 := rstrip_char "-" (lstrip_char "-" s1)).
  destruct (rstrip_char "-" (take 60 s2)) as [|b r] eqn:E.
  - split; [done|]. split; [simpl; lia|]. split; [|split].
    + intros c Hc. left. revert Hc. cbn [has_char].
      repeat match goal with
             | |- context [Ascii.eqb c ?x] =>
                 destruct (Ascii.eqb_spec c x) as [->|_]; [intros _; reflexivity|]
             end.
      done.
    + done.
    + intros r. do 9 (destruct r as [|? r]; [done|]). done.
  - rewrite <- E. split; [by rewrite E|]. split; [|split; [|split]].
    + etrans; [apply length_rstrip|]. rewrite length_take. lia.
    + intros c Hc%has_char_rstrip%has_char_take%has_char_rstrip%has_char_lstrip.
      by eapply has_char_sub_runs.
    + intros r' Hr. apply rstrip_start in Hr as [r1 Hr].
      apply take_start in Hr as [r2 Hr]. apply rstrip_start in Hr as [r3 Hr].
      by apply lstrip_not_start in Hr.
    + intros r'. apply rstrip_not_end.
Qed.

End SafeNames.

Example toc_examples :
  py_split "  scripted	nav " = ["scripted"; "nav"]
  ∧ partition_hash "a#b#c" = ("a", "b#c")
  ∧ itertext (xh "a" ∅ (Some "Chapter ")
                [MkNode "b" ∅ (Some "1") (Some " tail") []]) = "Chapter 1 tail"
  ∧ nav_items ex_nav
    = [("One", "ch1.xhtml", None); ("Three", "ch3.xhtml", Some "x");
       ("Three", "ch3.xhtml", Some "x")]
  ∧ nav_items ex_nav_plain = []
  ∧ ncx_items ex_ncx
    = [("One", "ch1.xhtml", None); ("untitled", "ch1.xhtml", Some "s2")]
  ∧ result (_find_toc (W := ex_toc_book ex_nav) "book")
    = inl (Some "book/OEBPS",
           [("One", "ch1.xhtml", None); ("Three", "ch3.xhtml", Some "x");
            ("Three", "ch3.xhtml", Some "x")])
  ∧ result (_find_toc (W := ex_toc_book ex_nav_plain) "book")
    = inl (Some "book/OEBPS",
           [("One", "ch1.xhtml", None); ("untitled", "ch1.xhtml", Some "s2")])
  ∧ trace (_find_toc (W := ex_toc_book ex_nav_plain) "book")
    = [EParse "book/META-INF/container.xml"; EExists "book/OEBPS/content.opf";
       EParse "book/OEBPS/content.opf"; EParse "book/OEBPS/nav.xhtml";
       EParse "book/OEBPS/toc.ncx"]
  ∧ result (_find_toc (W := ex_no_container) "book") = inl (None, []).
Proof. repeat split; vm_compute; reflexivity. Qed.

(** ** The table of contents: entries of the NCX file and of the
    navigation document *)

Section TocEntries.
Import Str StrFacts.

Lemma Node_ind' (P : Node → Prop) :
  (∀ t a x y cs, Forall P cs → P (MkNode t a x y cs)) → ∀ n, P n.
Proof.
  intros H. fix IH 1. intros [t a x y cs]. apply H.
  induction cs as [|c cs IHcs]; constructor; [apply IH|exact IHcs].
Qed.

Lemma node_iter_eq n : node_iter n = n :: (nchildren n ≫= node_iter).
Proof.
  by destruct n as [t a x y cs].
Qed.

Lemma walk_eq n : walk n = nchildren n ≫= walk_child.
Proof.
  destruct n as [t a x y cs]. cbn [walk nchildren].
  induction cs as [|c cs IH]; [done|]. rewrite bind_cons, <- IH.
  f_equal. unfold walk_child. destruct (is_list_tag c); [done|].
  destruct (bool_decide (_ln (ntag c) = "li")); [|done]. f_equal.
  destruct c as [t' a' x' y' subs]. cbn [nchildren]. clear.
  induction subs as [|s subs IH]; [done|].
  rewrite filter_cons. destruct (is_list_tag s) eqn:Hs.
  - rewrite decide_True by done. by rewrite bind_cons, IH.
  - rewrite decide_False by done. by rewrite IH.
Qed.

Lemma walk_sub child sub it :
  sub ∈ nchildren child → is_list_tag sub = true → it ∈ walk sub → it ∈ walk child.
Proof.
  intros Hsub Htag Hit. rewrite walk_eq. apply list_elem_of_bind.
  exists sub. split; [|done]. unfold walk_child. by rewrite Htag.
Qed.

Lemma index_of_hash_take s i :
  index_of "#" s = Some i → has_char "#" (take i s) = false.
Proof.
  revert i. induction s as [|b s IH]; intros i; [done|].
  cbn [index_of startswith].
  destruct (Ascii.eqb "#" b) eqn:Hb.
  - destruct s; intros [= <-]; done.
  - destruct (index_of "#" s) as [j|]; [|done]. intros [= <-].
    cbn [take has_char]. rewrite Hb. by apply IH.
Qed.

Lemma index_of_hash_None s : index_of "#" s = None → has_char "#" s = false.
Proof.
  induction s as [|b s IH]; [done|]. cbn [index_of startswith has_char].
  destruct (Ascii.eqb "#" b) eqn:Hb.
  - by destruct s.
  - destruct (index_of "#" s); [done|]. intros _. by apply IH.
Qed.

Lemma partition_hash_fp href : has_char "#" (partition_hash href).1 = false.
Proof.
  unfold partition_hash. destruct (index_of "#" href) as [i|] eqn:Hi.
  - by apply index_of_hash_take.
  - by apply index_of_hash_None.
Qed.

Lemma href_entry_spec title href :
  Forall (λ it : TocItem, it.1.1 = title ∧ it.1.2 ≠ ""
                          ∧ has_char "#" it.1.2 = false ∧ it.2 ≠ Some "")
    (href_entry title href).
Proof.
  unfold href_entry. pose proof (partition_hash_fp href) as Hfp.
  destruct (partition_hash href) as [[|c fp] frag]; [constructor|].
  repeat constructor; [done|done|by destruct frag].
Qed.

Lemma or_untitled_nonempty s : or_untitled s ≠ "".
Proof. by destruct s. Qed.

Lemma href_entry_wf title href :
  title ≠ "" → Forall toc_item_wf (href_entry title href).
Proof.
  intros Ht. eapply Forall_impl; [apply href_entry_spec|].
  intros it (Heq & ? & ? & ?). unfold toc_item_wf. by rewrite Heq.
Qed.

Lemma ncx_step_wf items nav :
  Forall toc_item_wf items → Forall toc_item_wf (ncx_step items nav).
Proof.
  intros Hi. unfold ncx_step.
  destruct (head (filter _ _)) as [te|]; [|done].
  destruct (head (filter _ _)) as [ce|]; [|done].
  destruct (default "" (nattrib ce !! "src")) as [|c href]; [done|].
  apply Forall_app. split; [done|].
  apply href_entry_wf, or_untitled_nonempty.
Qed.

Lemma ncx_step_length items nav :
  length (ncx_step items nav) ≤ S (length items).
Proof.
  unfold ncx_step.
  destruct (head (filter _ _)) as [te|]; [|lia].
  destruct (head (filter _ _)) as [ce|]; [|lia].
  destruct (default "" (nattrib ce !! "src")) as [|c href]; [lia|].
  rewrite List.length_app. unfold href_entry.
  destruct (partition_hash _) as [[|? ?] ?]; simpl; lia.
Qed.

(** Every entry [_parse_ncx] reads from an NCX file has a title
    and a file part that are not empty, a file part without [#], and a
    fragment that is [None] rather than empty; a navigation point gives
    at most one entry. *)
Theorem ncx_items_wf root :
  Forall toc_item_wf (ncx_items root)
  ∧ length (ncx_items root)
    ≤ length (filter (λ n, ntag n = ncx_ns "navPoint") (node_descendants root)).
Proof.
  unfold ncx_items.
  generalize (filter (λ n, ntag n = ncx_ns "navPoint") (node_descendants root)).
  intros navs.
  assert (H : ∀ acc, Forall toc_item_wf acc →
                Forall toc_item_wf (foldl ncx_step acc navs)
                ∧ length (foldl ncx_step acc navs) ≤ length acc + length navs).
  { induction navs as [|nav navs IH]; intros acc Hacc; simpl; [split; [done|lia]|].
    destruct (IH (ncx_step acc nav) (ncx_step_wf _ _ Hacc)) as [H1 H2].
    split; [done|]. pose proof (ncx_step_length acc nav). lia. }
  destruct (H [] (Forall_nil_2 _)) as [H1 H2]. split; [done|]. simpl in H2. lia.
Qed.

Lemma lstrip_cases s :
  lstrip s = "" ∨ ∃ c r, lstrip s = String c r ∧ is_space c = false.
Proof.
  induction s as [|c s IH]; [by left|]. cbn [lstrip].
  destruct (is_space c) eqn:Hc; [done|]. right. by exists c, s.
Qed.

Lemma rstrip_head c r :
  is_space c = false → ∃ r', rstrip (String c r) = String c r'.
Proof.
  intros Hc. cbn [rstrip]. destruct (rstrip r) as [|d r'].
  - rewrite Hc. by exists "".
  - by exists (String d r').
Qed.

Lemma rstrip_idemp s : rstrip (rstrip s) = rstrip s.
Proof.
  induction s as [|c s IH]; [done|]. cbn [rstrip].
  destruct (rstrip s) as [|d r] eqn:Hr.
  - destruct (is_space c) eqn:Hc; [done|]. cbn [rstrip]. by rewrite Hc.
  - change (rstrip (String c (String d r))) with
      (match rstrip (String d r) with
       | EmptyString => if is_space c then EmptyString else String c EmptyString
       | r' => String c r'
       end).
    by rewrite IH.
Qed.

Lemma strip_idemp s : strip (strip s) = strip s.
Proof.
  unfold strip. destruct (lstrip_cases s) as [->|(c & r & -> & Hc)]; [done|].
  destruct (rstrip_head c r Hc) as [r' Hr']. rewrite Hr' at 1.
  cbn [lstrip]. rewrite Hc, <- Hr'. apply rstrip_idemp.
Qed.

Lemma or_untitled_strip s : strip (or_untitled (strip s)) = or_untitled (strip s).
Proof.
  destruct (strip s) as [|c r] eqn:Hs; [done|].
  cbn [or_untitled]. rewrite <- Hs. apply strip_idemp.
Qed.

Lemma nav_li_entry_wf li :
  Forall (λ it, toc_item_wf it ∧ strip it.1.1 = it.1.1) (nav_li_entry li).
Proof.
  unfold nav_li_entry.
  destruct (head (filter _ _)) as [a|]; [|constructor].
  destruct (node_bool a); [|constructor].
  destruct (default "" (nattrib a !! "href")) as [|c href]; [constructor|].
  eapply Forall_impl; [apply href_entry_spec|].
  intros it (Heq & ? & ? & ?). unfold toc_item_wf. rewrite Heq.
  split; [|apply or_untitled_strip].
  split; [apply or_untitled_nonempty|done].
Qed.

Lemma walk_wf n :
  Forall (λ it, toc_item_wf it ∧ strip it.1.1 = it.1.1) (walk n).
Proof.
  induction n as [t a x y cs IH] using Node_ind'.
  rewrite walk_eq. cbn [nchildren]. apply Forall_bind.
  eapply Forall_impl; [exact IH|]. intros c Hc. unfold walk_child.
  cbn beta in Hc. unfold compose.
  destruct (is_list_tag c); [done|].
  destruct (bool_decide (_ln (ntag c) = "li")); [|constructor].
  apply Forall_app. split; [apply nav_li_entry_wf|].
  apply Forall_bind, Forall_forall. intros sub [Htag Hsub]%list_elem_of_filter.
  unfold compose.
  apply Forall_forall. intros it Hit.
  rewrite Forall_forall in Hc. apply Hc. by apply (walk_sub c sub).
Qed.

(** Every entry [_parse_nav] reads from a navigation document has a
    title that is not empty and has no white space around it, a file part
    that is not empty and has no [#], and a fragment that is [None]
    rather than empty. *)
Theorem nav_items_wf root :
  Forall (λ it, toc_item_wf it ∧ strip it.1.1 = it.1.1) (nav_items root).
Proof.
  unfold nav_items. destruct (nav_element root); [apply walk_wf|constructor].
Qed.

Lemma node_iter_self n : n ∈ node_iter n.
Proof. rewrite node_iter_eq. apply list_elem_of_here. Qed.

Lemma node_iter_child n c d :
  c ∈ nchildren n → d ∈ node_iter c → d ∈ node_iter n.
Proof.
  intros Hc Hd. rewrite node_iter_eq. apply list_elem_of_further.
  apply list_elem_of_bind. by exists c.
Qed.

Lemma node_iter_trans n :
  ∀ m d, m ∈ node_iter n → d ∈ node_iter m → d ∈ node_iter n.
Proof.
  induction n as [t a x y cs IH] using Node_ind'. intros m d Hm Hd.
  rewrite node_iter_eq in Hm. apply elem_of_cons in Hm as [->|Hm]; [done|].
  apply list_elem_of_bind in Hm as (c & Hm & Hc). cbn [nchildren] in Hc.
  rewrite Forall_forall in IH.
  apply (node_iter_child _ c); [done|]. by apply (IH c Hc m).
Qed.

Lemma nav_element_iter root nav :
  nav_element root = Some nav → nav ∈ node_iter root.
Proof.
  unfold nav_element.
  destruct (head (filter (λ c, is_toc_nav c = true) _)) as [c|] eqn:Hc.
  - intros [= <-]. apply head_Some_elem_of in Hc.
    apply list_elem_of_filter in Hc as [_ Hc].
    by apply list_elem_of_filter in Hc as [_ Hc].
  - intros Hh%head_Some_elem_of. by apply list_elem_of_filter in Hh as [_ Hh].
Qed.

Lemma bind_all_nil {A B} (f : A → list B) (l : list A) :
  Forall (λ x, f x = []) l → l ≫= f = [].
Proof.
  induction 1 as [|x l Hx _ IH]; [done|]. by rewrite bind_cons, Hx, IH.
Qed.

Lemma walk_plain_anchors n :
  (∀ a, a ∈ node_iter n → _ln (ntag a) = "a" → nchildren a = []) → walk n = [].
Proof.
  induction n as [t a x y cs IH] using Node_ind'. intros Hplain.
  assert (Hch : ∀ c, c ∈ cs → walk c = []).
  { intros c Hc. rewrite Forall_forall in IH. apply (IH c Hc).
    intros b Hb. apply Hplain. by apply (node_iter_child _ c). }
  rewrite walk_eq. cbn [nchildren].
  apply bind_all_nil, Forall_forall. intros c Hc. unfold walk_child.
  destruct (is_list_tag c); [by apply Hch|].
  destruct (bool_decide (_ln (ntag c) = "li")); [|done].
  apply app_nil. split.
  - unfold nav_li_entry.
    destruct (head (filter _ _)) as [b|] eqn:Hb; [|done].
    apply head_Some_elem_of, list_elem_of_filter in Hb as [Htag Hb].
    unfold node_bool. rewrite (Hplain b); [done| |done].
    by apply (node_iter_child _ c).
  - apply bind_all_nil, Forall_forall. intros sub [Htag Hsub]%list_elem_of_filter.
    destruct (walk sub) as [|it its] eqn:Hw; [done|].
    assert (Hin : it ∈ walk c).
    { apply (walk_sub c sub); [done|done|]. rewrite Hw. apply list_elem_of_here. }
    rewrite (Hch c Hc) in Hin. by apply elem_of_nil in Hin.
Qed.

(** A navigation document in which no link has a child element gives no
    entry: the test [if a] of [walk] is the truth value of the element,
    which is false for an element without children, whatever its text. *)
Theorem nav_items_plain_anchors root :
  forallb (λ a, negb (bool_decide (_ln (ntag a) = "a")) || negb (node_bool a))
    (node_iter root) = true →
  nav_items root = [].
Proof.
  intros Hplain. unfold nav_items.
  destruct (nav_element root) as [nav|] eqn:Hnav; [|done].
  apply walk_plain_anchors. intros a Ha Htag.
  rewrite forallb_forall in Hplain.
  assert (Hin : a ∈ node_iter root).
  { apply (node_iter_trans root nav); [by apply nav_element_iter|done]. }
  apply list_elem_of_In, Hplain in Hin.
  rewrite bool_decide_true in Hin by done. simpl in Hin.
  unfold node_bool in Hin. by destruct (nchildren a).
Qed.

End TocEntries.

Lemma nav_items_plain_anchors_witness : nav_items ex_nav_plain = [].
Proof. apply nav_items_plain_anchors. reflexivity. Defined.

(** ** Locating the table of contents *)

Section TocFinder.
Context `{NW : NodeWorld}.

Lemma parse_xml_node_cases path :
  trace (_parse_xml_node path) = [EParse path]
  ∧ result (_parse_xml_node path)
    = match et_parse_node path with
      | inl t => inl (Some t)
      | inr ParseError | inr FileNotFoundError => inl None
      | inr e => inr e
      end.
Proof.
  unfold _parse_xml_node, io_catch, io_parse_node, io_bind, io_ret, trace, result.
  destruct (et_parse_node path) as [t|[]]; done.
Qed.

Lemma parse_nav_cases path :
  trace (_parse_nav path) = [EParse path]
  ∧ result (_parse_nav path)
    = match et_parse_node path with
      | inl t => inl (parent path, nav_items t)
      | inr ParseError | inr FileNotFoundError => inl (parent path, [])
      | inr e => inr e
      end.
Proof.
  unfold _parse_nav. rewrite trace_bind, result_bind.
  destruct (parse_xml_node_cases path) as [-> ->].
  destruct (et_parse_node path) as [t|[]]; done.
Qed.

Lemma parse_ncx_cases path :
  trace (_parse_ncx path) = [EParse path]
  ∧ result (_parse_ncx path)
    = match et_parse_node path with
      | inl t => inl (parent path, ncx_items t)
      | inr ParseError | inr FileNotFoundError => inl (parent path, [])
      | inr e => inr e
      end.
Proof.
  unfold _parse_ncx. rewrite trace_bind, result_bind.
  destruct (parse_xml_node_cases path) as [-> ->].
  destruct (et_parse_node path) as [t|[]]; done.
Qed.

Lemma parse_opf_od_cases root :
  result (_parse_opf_od root)
  = match result (_find_opf root) with
    | inl (Some o) =>
        match et_parse o with
        | inl pkg =>
            inl (Some o,
                 manifest_od (from_option children []
                                (find_child (opf_ns "manifest") pkg)),
                 find_child (opf_ns "spine") pkg)
        | inr ParseError | inr FileNotFoundError => inl (Some o, [], None)
        | inr e => inr e
        end
    | inl None => inl (None, [], None)
    | inr e => inr e
    end.
Proof.
  unfold _parse_opf_od. rewrite result_bind.
  destruct (result (_find_opf root)) as [[o|]|e]; [|done|done].
  rewrite result_bind. destruct (parse_xml_cases o) as [_ ->].
  destruct (et_parse o) as [t|[]]; done.
Qed.

Lemma parse_opf_cases root :
  result (_parse_opf root)
  = match result (_find_opf root) with
    | inl (Some o) =>
        match et_parse o with
        | inl pkg =>
            inl (Some o,
                 manifest_of (from_option children []
                                (find_child (opf_ns "manifest") pkg)),
                 find_child (opf_ns "spine") pkg)
        | inr ParseError | inr FileNotFoundError => inl (Some o, ∅, None)
        | inr e => inr e
        end
    | inl None => inl (None, ∅, None)
    | inr e => inr e
    end.
Proof.
  unfold _parse_opf. rewrite result_bind.
  destruct (result (_find_opf root)) as [[o|]|e]; [|done|done].
  rewrite result_bind. destruct (parse_xml_cases o) as [_ ->].
  destruct (et_parse o) as [t|[]]; done.
Qed.

Lemma parse_opf_od_observes root :
  Forall (λ e, is_observation e = true) (trace (_parse_opf_od root))
  ∧ result (_parse_opf_od root) ≠ inr ParseError
  ∧ result (_parse_opf_od root) ≠ inr FileNotFoundError.
Proof.
  destruct (find_opf_observes root) as (Htr & Hp & Hf).
  unfold _parse_opf_od. rewrite trace_bind, result_bind.
  destruct (result (_find_opf root)) as [[o|]|e] eqn:Hr; simpl.
  - rewrite trace_bind, result_bind.
    destruct (parse_xml_cases o) as [-> ->].
    split; [|by destruct (et_parse o) as [t|[]]].
    apply Forall_app. split; [done|].
    destruct (et_parse o) as [t|[]]; by repeat constructor.
  - rewrite app_nil_r. by repeat split.
  - rewrite app_nil_r. repeat split; congruence.
Qed.

Lemma od_insert_lookup {A} k (v : A) d k' :
  assoc k' (od_insert k v d) = if decide (k' = k) then Some v else assoc k' d.
Proof.
  induction d as [|[k0 v0] d IH]; simpl.
  - by destruct (decide (k' = k)).
  - destruct (decide (k = k0)) as [->|Hk]; simpl.
    + by destruct (decide (k' = k0)).
    + destruct (decide (k' = k0)) as [->|Hk0].
      * by rewrite decide_False by done.
      * apply IH.
Qed.

(** The two views of the manifest agree: looking an identifier up in the
    ordered dictionary gives what the map gives. *)
Lemma manifest_od_lookup items id :
  assoc id (manifest_od items) = manifest_of items !! id.
Proof.
  unfold manifest_od, manifest_of.
  assert (H : ∀ (d : list (string * Element)) (m : gmap string Element),
            (∀ k, assoc k d = m !! k) →
            assoc id (foldl (λ m item, match attrib item !! "id" with
                                       | Some id => od_insert id item m
                                       | None => m
                                       end) d items)
            = foldl (λ m item, match attrib item !! "id" with
                               | Some id => <[id := item]> m
                               | None => m
                               end) m items !! id).
  { induction items as [|it items IH]; intros d m Hdm; [apply Hdm|].
    cbn [foldl]. apply IH. intros k.
    destruct (attrib it !! "id") as [i|]; [|apply Hdm].
    rewrite od_insert_lookup. destruct (decide (k = i)) as [->|Hk].
    - by rewrite lookup_insert_eq.
    - by rewrite lookup_insert_ne, Hdm. }
  by apply H.
Qed.

Lemma parse_opf_od_coherent root :
  trace (_parse_opf_od root) = trace (_parse_opf root)
  ∧ match result (_parse_opf_od root), result (_parse_opf root) with
    | inl (opf, d, sp), inl (opf', m, sp') =>
        opf = opf' ∧ sp = sp' ∧ ∀ id, assoc id d = m !! id
    | inr e, inr e' => e = e'
    | _, _ => False
    end.
Proof.
  split.
  - unfold _parse_opf_od, _parse_opf. rewrite !trace_bind.
    destruct (result (_find_opf root)) as [[o|]|e]; [|done|done].
    rewrite !trace_bind. by destruct (result (_parse_xml o)) as [[pkg|]|e].
  - rewrite parse_opf_od_cases, parse_opf_cases.
    destruct (result (_find_opf root)) as [[o|]|e]; [|done|done].
    destruct (et_parse o) as [pkg|[]]; try done.
    repeat split. intros id. apply manifest_od_lookup.
Qed.

Lemma try_navs_ok dir its :
  Forall (λ e, is_observation e = true) (trace (try_navs dir its))
  ∧ match result (try_navs dir its) with
    | inl None => True
    | inl (Some (_, items)) => items ≠ [] ∧ Forall toc_item_wf items
    | inr e => e ≠ ParseError ∧ e ≠ FileNotFoundError
    end.
Proof.
  induction its as [|it its IH]; [by split; [constructor|]|].
  cbn [try_navs]. destruct (is_nav_item it); [|done].
  destruct (attrib it !! "href") as [[|c href]|]; [done| |done].
  rewrite trace_bind, result_bind.
  destruct (parse_nav_cases (joinpath dir (String c href))) as [-> ->].
  pose proof (nav_items_wf) as Hwf.
  destruct (et_parse_node (joinpath dir (String c href))) as [t|[]].
  - cbn [fst snd]. specialize (Hwf t).
    destruct (nav_items t) as [|i items] eqn:Hi.
    + split; [by constructor; [|apply IH]|apply IH].
    + split; [by repeat constructor|]. cbn. split; [done|].
      eapply Forall_impl; [exact Hwf|]. by intros ? [? _].
  - cbn [fst snd]. split; [by constructor; [|apply IH]|apply IH].
  - cbn [fst snd]. split; [by constructor; [|apply IH]|apply IH].
  - split; [by repeat constructor|done].
  - split; [by repeat constructor|done].
Qed.

Lemma try_ncx_ok dir ncx :
  Forall (λ e, is_observation e = true) (trace (try_ncx dir ncx))
  ∧ match result (try_ncx dir ncx) with
    | inl (None, items) => items = []
    | inl (Some _, items) => items ≠ [] ∧ Forall toc_item_wf items
    | inr e => e ≠ ParseError ∧ e ≠ FileNotFoundError
    end.
Proof.
  unfold try_ncx. destruct ncx as [it|]; [|by split; [constructor|]].
  destruct (attrib it !! "href") as [[|c href]|]; try (by split; [constructor|]).
  rewrite trace_bind, result_bind.
  destruct (parse_ncx_cases (joinpath dir (String c href))) as [-> ->].
  destruct (et_parse_node (joinpath dir (String c href))) as [t|[]];
    try (by split; [repeat constructor|]).
  cbn [fst snd]. destruct (ncx_items_wf t) as [Hwf _].
  destruct (ncx_items t) as [|i items]; [by split; [repeat constructor|]|].
  split; [by repeat constructor|]. by cbn.
Qed.

(** [_find_toc] returns either no directory and no entry, or a directory
    with at least one entry, so the test [base_dir and items] of [main]
    only asks whether a table of contents was found.  The entries have a
    title and a file part that are not empty and a fragment that is
    [None] rather than empty.  The function only observes the file
    system, and neither a [ParseError] nor a [FileNotFoundError] escapes
    it. *)
Theorem find_toc_result root :
  Forall (λ e, is_observation e = true) (trace (_find_toc root))
  ∧ match result (_find_toc root) with
    | inl (None, items) => items = []
    | inl (Some _, items) => items ≠ [] ∧ Forall toc_item_wf items
    | inr e => e ≠ ParseError ∧ e ≠ FileNotFoundError
    end.
Proof.
  destruct (parse_opf_od_observes root) as (Htr & Hp & Hf).
  unfold _find_toc. rewrite trace_bind, result_bind.
  destruct (result (_parse_opf_od root)) as [[[[o|] m] sp]|e].
  - rewrite trace_bind, result_bind.
    destruct (try_navs_ok (parent o) m.*2) as [Hn1 Hn2].
    destruct (result (try_navs (parent o) m.*2)) as [[[b items]|]|e].
    + split; [|done]. rewrite app_nil_r. by apply Forall_app.
    + destruct (try_ncx_ok (parent o) (ncx_item m sp)) as [Hx1 Hx2].
      split; [|done]. by repeat (apply Forall_app; split).
    + split; [|done]. rewrite app_nil_r. by apply Forall_app.
  - split; [|done]. apply Forall_app. by split; [|constructor].
  - split; [by rewrite app_nil_r|]. split; congruence.
Qed.

(** When the package file is not located, or is located but is not
    well-formed or has vanished, [_find_toc] finds nothing and the run
    ends with the message that there is neither a table of contents nor
    a spine. *)
Theorem no_package_no_chapters t :
  result (_find_opf t) = inl None
  ∨ (∃ o, result (_find_opf t) = inl (Some o)
          ∧ (et_parse o = inr ParseError ∨ et_parse o = inr FileNotFoundError)) →
  result (_find_toc t) = inl (None, [])
  ∧ result (chapters_of_archive t) = inl (Exit "Error: no toc or spine found").
Proof.
  intros Hopf.
  assert (∃ opf, result (_parse_opf_od t) = inl (opf, [], None)
                 ∧ result (_parse_opf t) = inl (opf, ∅, None)) as (opf & Hod & Hof).
  { rewrite parse_opf_od_cases, parse_opf_cases.
    destruct Hopf as [->|(o & -> & [->| ->])]; eauto. }
  assert (Htoc : result (_find_toc t) = inl (None, [])).
  { unfold _find_toc. rewrite result_bind, Hod. by destruct opf. }
  assert (Hspine : result (_find_spine t) = inl (None, [])).
  { unfold _find_spine. rewrite result_bind, Hof. by destruct opf. }
  split; [done|].
  unfold chapters_of_archive. rewrite result_bind, Htoc, result_bind, Hspine.
  reflexivity.
Qed.

End TocFinder.

Lemma no_package_no_chapters_witness :
  result (_find_toc (W := ex_no_container) "book") = inl (None, [])
  ∧ result (chapters_of_archive (W := ex_no_container) "book")
    = inl (Exit "Error: no toc or spine found").
Proof. apply no_package_no_chapters. left. reflexivity. Defined.

(** ** What pandoc is given *)

Section ConversionMore.
Context `{W : World}.

(** Each chapter is handed to pandoc in one of two ways: as its file,
    named by [src], with nothing on standard input; or as [-] with a
    snippet on standard input, and then the snippet is a non-empty piece
    of the text that was read from the chapter's file.  A chapter whose
    file cannot be read is therefore handed over as its file. *)
Theorem convert_jobs_inputs chapters j :
  j ∈ convert_jobs chapters →
  (job_snippet j = None ∧ job_inp j = src (job_chapter j))
  ∨ (∃ seg text,
       job_snippet j = Some seg ∧ job_inp j = "-" ∧ seg ≠ ""
       ∧ read_text (html_path (job_chapter j)) = Some text
       ∧ ∃ pre post, text = pre +:+ seg +:+ post).
Proof.
  intros (_ & Hsn & Hinp)%elem_of_convert_jobs.
  destruct (job_snippet j) as [seg|] eqn:Hj; [|left; by rewrite Hinp].
  right. symmetry in Hsn. unfold chapter_snippet in Hsn.
  destruct (_ || _); [|done].
  apply extract_segment_piece in Hsn as (Hseg & pre & post & Htext).
  destruct (read_text (html_path (job_chapter j))) as [text|].
  - exists seg, text. repeat split; [|done|by exists pre, post].
    rewrite Hinp. by destruct seg.
  - destruct pre; [|done]. by destruct seg.
Qed.

End ConversionMore.

Lemma convert_jobs_inputs_witness :
  (job_snippet ex_anchored_job = None
   ∧ job_inp ex_anchored_job = src (job_chapter ex_anchored_job))
  ∨ (∃ seg text,
       job_snippet ex_anchored_job = Some seg ∧ job_inp ex_anchored_job = "-"
       ∧ seg ≠ ""
       ∧ read_text (World := ex_anchored_world)
           (html_path (job_chapter ex_anchored_job)) = Some text
       ∧ ∃ pre post, text = pre +:+ seg +:+ post).
Proof.
  apply (convert_jobs_inputs (W := ex_anchored_world) [ex_anchored_chapter]).
  vm_compute. apply list_elem_of_here.
Defined.
